(** * A shallow embedding of tlbcore's JSON codec ([common/jsonio.h]) and of
    its newline-framed transport ([common/jsonpipe.cc]). *)

From Stdlib Require Import List Ascii String Arith ZArith Lia Bool Sorting.Sorted Floats.SpecFloat.
Import ListNotations.

(* ================================================================= *)
(** ** Text and cursors *)

(** A C++ [std::string] / null-terminated buffer as a list of bytes.  A
    cursor [const char *s] is the suffix of the buffer still to be read;
    reading [*s] at the end of the list yields the terminating NUL. *)
Definition text := list ascii.

Definition NUL : ascii := ascii_of_nat 0.

Definition peek (s : text) : ascii :=
  match s with [] => NUL | c :: _ => c end.

(** [s++] *)
Definition advance (s : text) : text := tl s.

Definition is_space (c : ascii) : bool :=
  (c =? " ")%char || (c =? "009")%char || (c =? "010")%char || (c =? "013")%char.

(** [jsonSkipSpace] *)
Fixpoint jsonSkipSpace (s : text) : text :=
  match s with
  | c :: r => if is_space c then jsonSkipSpace r else s
  | [] => []
  end.

(** [rdJson(s, value)]: cursor and previous value in; success flag, cursor
    and value out. *)
Definition reader (T : Type) := text -> T -> bool * text * T.

(* ================================================================= *)
(** ** Primitive codecs

    The primitive overloads of [wrJsonSize], [wrJson], [rdJson] and the
    helper [jsonMatch] are only declared in [jsonio.h]; their bodies live in
    [jsonio.cc], which is not part of the sources.  The definitions of this
    part are therefore modelled from the spec (section 4.1). *)

(** Modelled from the spec: [jsonMatch] (declared in jsonio.h, body in
    jsonio.cc): if the pattern matches, advance past it. *)
Fixpoint jsonMatch (s pat : text) {struct pat} : option text :=
  match pat, s with
  | [], _ => Some s
  | p :: pr, c :: r => if (c =? p)%char then jsonMatch r pr else None
  | _ :: _, [] => None
  end.

Definition t_true : text := list_ascii_of_string "true".
Definition t_false : text := list_ascii_of_string "false".
Definition t_null : text := list_ascii_of_string "null".

(** Modelled from the spec: [bool] codec ([true] / [false] literals). *)
Definition wrJsonSize_bool (size : nat) (_ : bool) : nat := size + 5.

Definition wrJson_bool (b : bool) : text := if b then t_true else t_false.

Definition rdJson_bool : reader bool := fun s value =>
  let s := jsonSkipSpace s in
  match jsonMatch s t_true with
  | Some r => (true, r, true)
  | None =>
    match jsonMatch s t_false with
    | Some r => (true, r, false)
    | None => (false, s, value)
    end
  end.

(** Modelled from the spec: unsigned integers as decimal ASCII without
    leading zeros. *)
Definition digit (d : nat) : ascii := ascii_of_nat (48 + d).

Definition is_digit (c : ascii) : bool :=
  (48 <=? nat_of_ascii c) && (nat_of_ascii c <=? 57).

Definition digit_val (c : ascii) : nat := nat_of_ascii c - 48.

Fixpoint wr_nat_fuel (fuel n : nat) : text :=
  match fuel with
  | 0 => []
  | S f => (if n <? 10 then [] else wr_nat_fuel f (n / 10)) ++ [digit (n mod 10)]
  end.

Definition wr_nat (n : nat) : text := wr_nat_fuel (S n) n.

(** Greedy digit scan (as [strtoul] does). *)
Fixpoint rd_digits (s : text) (acc : nat) : nat * text :=
  match s with
  | c :: r => if is_digit c then rd_digits r (acc * 10 + digit_val c) else (acc, s)
  | [] => (acc, [])
  end.

Definition wrJsonSize_nat (size n : nat) : nat := size + List.length (wr_nat n).

Definition wrJson_nat (n : nat) : text := wr_nat n.

Definition rdJson_nat : reader nat := fun s value =>
  let s := jsonSkipSpace s in
  if is_digit (peek s) then
    let '(n, r) := rd_digits s 0 in (true, r, n)
  else (false, s, value).

(** Modelled from the spec: signed integers as decimal ASCII without
    leading zeros, with a minus sign when negative. *)
Definition MINUS : ascii := "-".

(** The decimal digits of [n >= 0], most significant first. *)
Fixpoint zdigits_fuel (fuel : nat) (n : Z) : list Z :=
  match fuel with
  | O => [n]
  | S f => if (n <? 10)%Z then [n] else zdigits_fuel f (n / 10)%Z ++ [(n mod 10)%Z]
  end.

Definition zdigits (n : Z) : list Z := zdigits_fuel (Z.to_nat (Z.log2 n)) n.

Definition wr_zdec (n : Z) : text := map (fun d => digit (Z.to_nat d)) (zdigits n).

(** Greedy digit scan into a [Z]; [cnt] counts the digits read. *)
Fixpoint rd_zdigits (s : text) (acc : Z) (cnt : Z) : Z * Z * text :=
  match s with
  | c :: r =>
    if is_digit c then rd_zdigits r (acc * 10 + Z.of_nat (digit_val c))%Z (cnt + 1)%Z
    else (acc, cnt, s)
  | [] => (acc, cnt, [])
  end.

Definition wrJson_int (z : Z) : text :=
  if (z <? 0)%Z then MINUS :: wr_zdec (- z) else wr_zdec z.

Definition wrJsonSize_int (size : nat) (z : Z) : nat := size + List.length (wrJson_int z).

(** An optional minus sign. *)
Definition rd_sign (s : text) : bool * text :=
  if (peek s =? MINUS)%char then (true, advance s) else (false, s).

Definition rdJson_int : reader Z := fun s value =>
  let s := jsonSkipSpace s in
  let '(neg, s1) := rd_sign s in
  if is_digit (peek s1) then
    let '(n, _, r) := rd_zdigits s1 0 0 in (true, r, if neg then (- n)%Z else n)
  else (false, s, value).

(** The widths of the signed overloads, [S32] and [S64]. *)
Inductive int_width := W32 | W64.

Definition int_bits (w : int_width) : Z :=
  match w with W32 => 32 | W64 => 64 end.

(** Modelled from the spec: IEEE 754 binary floating point ([float] is
    binary32, [double] binary64), as [SpecFloat]'s [spec_float]. *)
Inductive float_format := Binary32 | Binary64.

Definition fmt_prec (f : float_format) : Z :=
  match f with Binary32 => 24 | Binary64 => 53 end.

Definition fmt_emax (f : float_format) : Z :=
  match f with Binary32 => 128 | Binary64 => 1024 end.

(** Significant digits that always suffice to read a value back. *)
Definition fmt_digits (f : float_format) : nat :=
  match f with Binary32 => 9 | Binary64 => 17 end.

(** [(a / b) / 2^e] as a fraction, for [a, b > 0]. *)
Definition scale2 (e a b : Z) : Z * Z := (a * 2 ^ Z.max (- e) 0, b * 2 ^ Z.max e 0)%Z.

(** [n / d] rounded to the nearest integer, ties to even. *)
Definition rne (n d : Z) : Z :=
  let q := (n / d)%Z in
  match Z.compare (2 * (n mod d)) d with
  | Lt => q
  | Gt => (q + 1)%Z
  | Eq => if Z.even q then q else (q + 1)%Z
  end.

(** [floor (log2 (a / b))] for [a, b > 0]. *)
Definition ilog2_frac (a b : Z) : Z :=
  let l := (Z.log2 a - Z.log2 b)%Z in
  let '(n, d) := scale2 l a b in
  if (n <? d)%Z then (l - 1)%Z else l.

(** The float nearest to [a / b] (ties to even), with sign [s]. *)
Definition round_frac (prec emax : Z) (s : bool) (a b : Z) : spec_float :=
  let e := Z.max (ilog2_frac a b + 1 - prec) (emin prec emax) in
  let '(n, d) := scale2 e a b in
  let m := rne n d in
  let '(m, e) := if (m =? 2 ^ prec)%Z then (2 ^ (prec - 1), e + 1)%Z else (m, e) in
  match m with
  | Zpos p => if (e <=? emax - prec)%Z then S754_finite s p e else S754_infinity s
  | _ => S754_zero s
  end.

(** The float nearest to [n * 10^k], [n >= 0]. *)
Definition round_dec (f : float_format) (s : bool) (n k : Z) : spec_float :=
  if (n =? 0)%Z then S754_zero s
  else round_frac (fmt_prec f) (fmt_emax f) s (n * 10 ^ Z.max k 0) (10 ^ Z.max (- k) 0).

Definition spec_float_eqb (x y : spec_float) : bool :=
  match x, y with
  | S754_zero a, S754_zero b => Bool.eqb a b
  | S754_infinity a, S754_infinity b => Bool.eqb a b
  | S754_nan, S754_nan => true
  | S754_finite a m e, S754_finite b m' e' => Bool.eqb a b && Pos.eqb m m' && Z.eqb e e'
  | _, _ => false
  end.

(** [m * 2^e] as [A * 10^F] with [A] an integer. *)
Definition dec_of_bin (m : positive) (e : Z) : Z * Z :=
  if (0 <=? e)%Z then (Zpos m * 2 ^ e, 0)%Z else (Zpos m * 5 ^ (- e), e)%Z.

(** [A * 10^F] rounded to [p] significant digits, as [d * 10^E]. *)
Definition round_digits (A F : Z) (p : nat) : Z * Z :=
  let k := (Z.of_nat (List.length (zdigits A)) - Z.of_nat p)%Z in
  if (k <=? 0)%Z then (A, F)
  else
    let d := rne A (10 ^ k) in
    if (d =? 10 ^ Z.of_nat p)%Z then (10 ^ (Z.of_nat p - 1), F + k + 1)%Z
    else (d, F + k)%Z.

(** The fewest significant digits [p] whose rounding reads back as the
    value, trying [p = 1, 2, ...]; the last candidate is taken as is. *)
Fixpoint shortest_from (f : float_format) (x : spec_float) (s : bool) (A F : Z)
    (p fuel : nat) : Z * Z :=
  match fuel with
  | O => round_digits A F p
  | S fuel' =>
    let c := round_digits A F p in
    if spec_float_eqb (round_dec f s (fst c) (snd c)) x then c
    else shortest_from f x s A F (S p) fuel'
  end.

Definition shortest (f : float_format) (s : bool) (m : positive) (e : Z) : Z * Z :=
  let '(A, F) := dec_of_bin m e in
  shortest_from f (S754_finite s m e) s A F 1 (fmt_digits f - 1).

Definition sign_text (s : bool) : text := if s then [MINUS] else [].

Definition wr_exp (E : Z) : text := if (E =? 0)%Z then [] else "e"%char :: wrJson_int E.

(** NaN is written [null]; an infinity as a decimal beyond the range,
    which reads back as that infinity. *)
Definition wrJson_float (f : float_format) (x : spec_float) : text :=
  match x with
  | S754_nan => t_null
  | S754_infinity s => sign_text s ++ list_ascii_of_string "1e999"
  | S754_zero s => sign_text s ++ ["0"%char]
  | S754_finite s m e =>
    let '(d, E) := shortest f s m e in sign_text s ++ wr_zdec d ++ wr_exp E
  end.

Definition wrJsonSize_float (f : float_format) (size : nat) (x : spec_float) : nat :=
  size + List.length (wrJson_float f x).

(** A JSON number: sign, digits, optional fraction, optional exponent;
    its value is [n * 10^k]. *)
Definition rd_number (s : text) : option (bool * Z * Z * text) :=
  let '(neg, s1) := rd_sign s in
  if negb (is_digit (peek s1)) then None
  else
    let '(n, _, s2) := rd_zdigits s1 0 0 in
    let '(n, fd, s3) :=
      if (peek s2 =? ".")%char && is_digit (peek (advance s2))
      then rd_zdigits (advance s2) n 0 else (n, 0%Z, s2) in
    let '(x, s4) :=
      if ((peek s3 =? "e")%char || (peek s3 =? "E")%char) then
        let s' := advance s3 in
        let '(eneg, s'') :=
          if (peek s' =? "+")%char then (false, advance s') else rd_sign s' in
        if is_digit (peek s'') then
          let '(x, _, r) := rd_zdigits s'' 0 0 in ((if eneg then - x else x)%Z, r)
        else (0%Z, s3)
      else (0%Z, s3) in
    Some (neg, n, (x - fd)%Z, s4).

Definition rdJson_float (f : float_format) : reader spec_float := fun s value =>
  let s := jsonSkipSpace s in
  match jsonMatch s t_null with
  | Some r => (true, r, S754_nan)
  | None =>
    match rd_number s with
    | Some (neg, n, k, r) => (true, r, round_dec f neg n k)
    | None => (false, s, value)
    end
  end.

(** Modelled from the spec: text as a JSON string literal; the double quote
    and the backslash are backslash-escaped, control characters are written as [\u00XY], every
    other byte passes through unchanged. *)
Definition QUOTE : ascii := ascii_of_nat 34.

Definition hexdigit (d : nat) : ascii :=
  if d <? 10 then ascii_of_nat (48 + d) else ascii_of_nat (87 + d).

Definition hex_val (c : ascii) : option nat :=
  let n := nat_of_ascii c in
  if (48 <=? n) && (n <=? 57) then Some (n - 48)
  else if (97 <=? n) && (n <=? 102) then Some (n - 87)
  else if (65 <=? n) && (n <=? 70) then Some (n - 55)
  else None.

Definition escape_char (c : ascii) : text :=
  if (c =? QUOTE)%char then ["\"; QUOTE]%char
  else if (c =? "\")%char then ["\"; "\"]%char
  else if nat_of_ascii c <? 32 then
    ["\"; "u"; "0"; "0"; hexdigit (nat_of_ascii c / 16); hexdigit (nat_of_ascii c mod 16)]%char
  else [c].

Definition wrJsonSize_string (size : nat) (value : text) : nat :=
  size + 2 + fold_right (fun c n => List.length (escape_char c) + n) 0 value.

Definition wrJson_string (value : text) : text :=
  [QUOTE] ++ flat_map escape_char value ++ [QUOTE].

Definition hex4 (a b c d : ascii) : option nat :=
  match hex_val a, hex_val b, hex_val c, hex_val d with
  | Some x, Some y, Some z, Some w => Some (((x * 16 + y) * 16 + z) * 16 + w)
  | _, _, _, _ => None
  end.

(** Body of a string literal, after the opening quote; [acc] holds the
    decoded bytes in reverse.  [\uXXXX] above 255 is refused (the spec
    leaves non-ASCII escapes open). *)
Fixpoint rd_string_body (s : text) (acc : text) : option (text * text) :=
  match s with
  | [] => None
  | c :: r =>
    if (c =? QUOTE)%char then Some (rev acc, r)
    else if (c =? "\")%char then
      match r with
      | e :: r' =>
        if (e =? QUOTE)%char then rd_string_body r' (QUOTE :: acc)
        else if (e =? "\")%char then rd_string_body r' ("\"%char :: acc)
        else if (e =? "/")%char then rd_string_body r' ("/"%char :: acc)
        else if (e =? "n")%char then rd_string_body r' ("010"%char :: acc)
        else if (e =? "t")%char then rd_string_body r' ("009"%char :: acc)
        else if (e =? "r")%char then rd_string_body r' ("013"%char :: acc)
        else if (e =? "u")%char then
          match r' with
          | h1 :: h2 :: h3 :: h4 :: r'' =>
            match hex4 h1 h2 h3 h4 with
            | Some n => if n <? 256 then rd_string_body r'' (ascii_of_nat n :: acc) else None
            | None => None
            end
          | _ => None
          end
        else None
      | [] => None
      end
    else if (c =? NUL)%char then None
    else rd_string_body r (c :: acc)
  end.

Definition rdJson_string : reader text := fun s value =>
  let s := jsonSkipSpace s in
  if (peek s =? QUOTE)%char then
    match rd_string_body (advance s) [] with
    | Some (v, r) => (true, r, v)
    | None => (false, s, value)
    end
  else (false, s, value).

(** [std::string]'s [operator<]: lexicographic byte order. *)
Fixpoint text_compare (a b : text) : comparison :=
  match a, b with
  | [], [] => Eq
  | [], _ :: _ => Lt
  | _ :: _, [] => Gt
  | x :: a', y :: b' =>
    match Ascii.compare x y with
    | Eq => text_compare a' b'
    | c => c
    end
  end.

(* ================================================================= *)
(** ** Container codecs (jsonio.h)

    Each container codec is written once, in terms of the size, write and
    read functions of its element type, exactly as the C++ templates are. *)

Definition ch (n : nat) : text := [ascii_of_nat n].
Definition LBRACK : ascii := "[".
Definition RBRACK : ascii := "]".
Definition LBRACE : ascii := "{".
Definition RBRACE : ascii := "}".
Definition COMMA : ascii := ",".
Definition COLON : ascii := ":".

(** [shared_ptr<T>]: [wrJsonSize] and [wrJson] (jsonio.h 138-157); there is
    no [rdJson] for [shared_ptr<T>]. *)
Definition wrJsonSize_ptr {T} (szT : nat -> T -> nat) (size : nat) (p : option T) : nat :=
  match p with
  | Some x => szT size x
  | None => size + 4
  end.

Definition wrJson_ptr {T} (wrT : T -> text) (p : option T) : text :=
  match p with
  | Some x => wrT x
  | None => t_null
  end.

(** [vector<T>]: [wrJsonSize] (jsonio.h 192-198). *)
Fixpoint wrJsonSize_elems {T} (szT : nat -> T -> nat) (size : nat) (l : list T) : nat :=
  match l with
  | [] => size
  | x :: r => wrJsonSize_elems szT (szT size x) r
  end.

Definition wrJsonSize_vec {T} (szT : nat -> T -> nat) (size : nat) (arr : list T) : nat :=
  wrJsonSize_elems szT (size + (2 + List.length arr)) arr.

(** [vector<T>]: [wrJson] (jsonio.h 200-210); [sep] is the C++ flag. *)
Fixpoint wrJson_elems {T} (wrT : T -> text) (sep : bool) (l : list T) : text :=
  match l with
  | [] => []
  | x :: r => (if sep then [COMMA] else []) ++ wrT x ++ wrJson_elems wrT true r
  end.

Definition wrJson_vec {T} (wrT : T -> text) (arr : list T) : text :=
  [LBRACK] ++ wrJson_elems wrT false arr ++ [RBRACK].

(** [vector<T>]: the [while (1)] loop of [rdJson] (jsonio.h 238-254).  Each
    iteration that continues consumes a comma, so [length s + 1] iterations
    always suffice; the [fuel] never runs out on a call from
    [rdJson_vec]. *)
Fixpoint rdJson_vec_loop {T} (defT : T) (rdT : reader T) (fuel : nat)
    (s : text) (arr : list T) : bool * text * list T :=
  match fuel with
  | 0 => (false, s, arr)
  | S f =>
    let s := jsonSkipSpace s in
    if (peek s =? RBRACK)%char then (true, advance s, arr)
    else
      let '(ok, s, tmp) := rdT s defT in
      if negb ok then (false, s, arr)
      else
        let arr := arr ++ [tmp] in
        let s := jsonSkipSpace s in
        if (peek s =? COMMA)%char then rdJson_vec_loop defT rdT f (advance s) arr
        else if (peek s =? RBRACK)%char then (true, advance s, arr)
        else (false, s, arr)
  end.

(** [vector<T>]: [rdJson] (jsonio.h 232-257); [arr.clear()] happens after
    the opening bracket is seen. *)
Definition rdJson_vec {T} (defT : T) (rdT : reader T) : reader (list T) := fun s arr =>
  let s := jsonSkipSpace s in
  if negb (peek s =? LBRACK)%char then (false, s, arr)
  else rdJson_vec_loop defT rdT (S (List.length (advance s))) (advance s) [].

(** [map<KT, VT>] as the ordered sequence of its entries.  [arr[k] = v]:
    find the key in key order and overwrite its value, or insert a new
    entry at its place. *)
Fixpoint map_insert {K V} (cmp : K -> K -> comparison) (k : K) (v : V)
    (m : list (K * V)) : list (K * V) :=
  match m with
  | [] => [(k, v)]
  | (k', v') :: r =>
    match cmp k k' with
    | Lt => (k, v) :: m
    | Eq => (k', v) :: r
    | Gt => (k', v') :: map_insert cmp k v r
    end
  end.

(** [map::find]: the value bound to a key, if any. *)
Fixpoint map_lookup {K V} (cmp : K -> K -> comparison) (k : K) (m : list (K * V)) : option V :=
  match m with
  | [] => None
  | (k', v) :: r => match cmp k k' with Eq => Some v | _ => map_lookup cmp k r end
  end.

(** The value written with the last occurrence of a key in a sequence of
    key/value pairs (the last-wins reading of duplicate keys). *)
Definition last_binding {K V} (cmp : K -> K -> comparison) (k : K) (kvs : list (K * V))
  : option V :=
  match find (fun kv => match cmp k (fst kv) with Eq => true | _ => false end) (rev kvs) with
  | Some kv => Some (snd kv)
  | None => None
  end.

(** [map<KT, VT>]: [wrJsonSize] (jsonio.h 290-298). *)
Fixpoint wrJsonSize_entries {K V} (szK : nat -> K -> nat) (szV : nat -> V -> nat)
    (size : nat) (m : list (K * V)) : nat :=
  match m with
  | [] => size
  | (k, v) :: r => wrJsonSize_entries szK szV (szV (szK size k) v + 2) r
  end.

Definition wrJsonSize_map {K V} (szK : nat -> K -> nat) (szV : nat -> V -> nat)
    (size : nat) (m : list (K * V)) : nat :=
  wrJsonSize_entries szK szV (size + 2) m.

(** [map<KT, VT>]: [wrJson] (jsonio.h 300-312). *)
Fixpoint wrJson_entries {K V} (wrK : K -> text) (wrV : V -> text) (sep : bool)
    (m : list (K * V)) : text :=
  match m with
  | [] => []
  | (k, v) :: r =>
    (if sep then [COMMA] else []) ++ wrK k ++ [COLON] ++ wrV v
      ++ wrJson_entries wrK wrV true r
  end.

Definition wrJson_map {K V} (wrK : K -> text) (wrV : V -> text) (m : list (K * V)) : text :=
  [LBRACE] ++ wrJson_entries wrK wrV false m ++ [RBRACE].

(** [map<KT, VT>]: the [while (1)] loop of [rdJson] (jsonio.h 320-343). *)
Fixpoint rdJson_map_loop {K V} (defK : K) (defV : V) (rdK : reader K) (rdV : reader V)
    (cmp : K -> K -> comparison) (fuel : nat) (s : text) (arr : list (K * V))
    : bool * text * list (K * V) :=
  match fuel with
  | 0 => (false, s, arr)
  | S f =>
    let s := jsonSkipSpace s in
    if (peek s =? RBRACE)%char then (true, advance s, arr)
    else
      let '(ok, s, ktmp) := rdK s defK in
      if negb ok then (false, s, arr)
      else
        let s := jsonSkipSpace s in
        if negb (peek s =? COLON)%char then (false, s, arr)
        else
          let s := jsonSkipSpace (advance s) in
          let '(ok, s, vtmp) := rdV s defV in
          if negb ok then (false, s, arr)
          else
            let arr := map_insert cmp ktmp vtmp arr in
            let s := jsonSkipSpace s in
            if (peek s =? COMMA)%char then
              rdJson_map_loop defK defV rdK rdV cmp f (advance s) arr
            else if (peek s =? RBRACE)%char then (true, advance s, arr)
            else (false, s, arr)
  end.

(** [map<KT, VT>]: [rdJson] (jsonio.h 314-346). *)
Definition rdJson_map {K V} (defK : K) (defV : V) (rdK : reader K) (rdV : reader V)
    (cmp : K -> K -> comparison) : reader (list (K * V)) := fun s arr =>
  let s := jsonSkipSpace s in
  if negb (peek s =? LBRACE)%char then (false, s, arr)
  else rdJson_map_loop defK defV rdK rdV cmp (S (List.length (advance s))) (advance s) [].

(* ================================================================= *)
(** ** Value shapes and overload dispatch *)

(** The C++ types the overloads cover: [bool], an unsigned integer,
    [S32] and [S64], [float] and [double], [string], [vector<T>],
    [map<string, T>] and [shared_ptr<T>]. *)
Inductive shape : Type :=
| SBool
| SNat
| SInt (w : int_width)
| SFlt (f : float_format)
| SStr
| SVec (t : shape)
| SMap (t : shape)
| SPtr (t : shape).

Fixpoint denote (t : shape) : Type :=
  match t with
  | SBool => bool
  | SNat => nat
  | SInt _ => Z
  | SFlt _ => spec_float
  | SStr => text
  | SVec t => list (denote t)
  | SMap t => list (text * denote t)
  | SPtr t => option (denote t)
  end.

(** The value of a default-constructed [T tmp;]. *)
Definition default_of (t : shape) : denote t :=
  match t as t0 return denote t0 with
  | SBool => false
  | SNat => 0
  | SInt _ => 0%Z
  | SFlt _ => S754_zero false
  | SStr => []
  | SVec _ => []
  | SMap _ => []
  | SPtr _ => None
  end.

Fixpoint wrJsonSize_of (t : shape) : nat -> denote t -> nat :=
  match t as t0 return nat -> denote t0 -> nat with
  | SBool => wrJsonSize_bool
  | SNat => wrJsonSize_nat
  | SInt _ => wrJsonSize_int
  | SFlt f => wrJsonSize_float f
  | SStr => wrJsonSize_string
  | SVec t => wrJsonSize_vec (wrJsonSize_of t)
  | SMap t => wrJsonSize_map wrJsonSize_string (wrJsonSize_of t)
  | SPtr t => wrJsonSize_ptr (wrJsonSize_of t)
  end.

Fixpoint wrJson_of (t : shape) : denote t -> text :=
  match t as t0 return denote t0 -> text with
  | SBool => wrJson_bool
  | SNat => wrJson_nat
  | SInt _ => wrJson_int
  | SFlt f => wrJson_float f
  | SStr => wrJson_string
  | SVec t => wrJson_vec (wrJson_of t)
  | SMap t => wrJson_map wrJson_string (wrJson_of t)
  | SPtr t => wrJson_ptr (wrJson_of t)
  end.

(** [rdJson] exists for a shape only if it exists for all its parts;
    [shared_ptr<T>] has none. *)
Fixpoint rdJson_of (t : shape) : option (reader (denote t)) :=
  match t as t0 return option (reader (denote t0)) with
  | SBool => Some rdJson_bool
  | SNat => Some rdJson_nat
  | SInt _ => Some rdJson_int
  | SFlt f => Some (rdJson_float f)
  | SStr => Some rdJson_string
  | SVec t => option_map (rdJson_vec (default_of t)) (rdJson_of t)
  | SMap t =>
    option_map (fun rd => rdJson_map [] (default_of t) rdJson_string rd text_compare)
      (rdJson_of t)
  | SPtr _ => None
  end.

(** [asJson] (jsonio.h 411-420): the size pass gives [retSize], the buffer
    of [startWrite(retSize)] holds [retSize] bytes, and the write pass fills
    it.  [None] stands for a write pass running past the end of that
    buffer. *)
Definition asJson (t : shape) (value : denote t) : option text :=
  let retSize := wrJsonSize_of t 0 value in
  let p := wrJson_of t value in
  if List.length p <=? retSize then Some p else None.

(** [fromJson] (jsonio.h 422-426): the read pass over the buffer into the
    caller's [value]. *)
Definition fromJson {T} (rd : reader T) (sj : text) (value : T) : bool * T :=
  let '(ok, _, v) := rd sj value in (ok, v).

(** Values a C++ object of the shape can hold: a signed integer fits its
    width, a float is a valid value of its format (no NaN payload), and a
    [std::map] keeps its keys strictly increasing. *)
Definition key_lt {V} (a b : text * V) : Prop := text_compare (fst a) (fst b) = Lt.

Fixpoint wf (t : shape) : denote t -> Prop :=
  match t as t0 return denote t0 -> Prop with
  | SBool | SNat | SStr => fun _ => True
  | SInt w => fun z => (- 2 ^ (int_bits w - 1) <= z < 2 ^ (int_bits w - 1))%Z
  | SFlt f => fun x => valid_binary (fmt_prec f) (fmt_emax f) x = true
  | SVec t => fun l => Forall (wf t) l
  | SMap t => fun m => StronglySorted key_lt m /\ Forall (fun kv => wf t (snd kv)) m
  | SPtr t => fun p => match p with Some x => wf t x | None => True end
  end.

(** Bytes that may follow a value inside an encoding: the end of the
    buffer, or a separator of an enclosing container. *)
Definition delim (rest : text) : bool :=
  let c := peek rest in
  (c =? NUL)%char || (c =? COMMA)%char || (c =? RBRACK)%char
  || (c =? RBRACE)%char || (c =? COLON)%char.

(** An encoding that a container reader can tell apart from its closing
    bracket and from blank space. *)
Definition head_ok (e : text) : bool :=
  match e with
  | c :: _ => negb (is_space c) && negb (c =? RBRACK)%char && negb (c =? RBRACE)%char
  | [] => false
  end.

(* ================================================================= *)
(** ** The transport ([jsonpipe], common/jsonpipe.cc) *)

(** The members of a [jsonpipe]; an fd of [-1] is closed.  [mutex0] and
    [rxQNonempty] appear as the events below. *)
Record jsonpipe := mkPipe {
  txFd : Z;
  rxFd : Z;
  txEofFlag : bool;
  txQ : list text;
  rxQ : list text;
  txCur : text;
  rxCur : text
}.

Definition set_txFd (st : jsonpipe) (fd : Z) : jsonpipe :=
  mkPipe fd (rxFd st) (txEofFlag st) (txQ st) (rxQ st) (txCur st) (rxCur st).
Definition set_rxFd (st : jsonpipe) (fd : Z) : jsonpipe :=
  mkPipe (txFd st) fd (txEofFlag st) (txQ st) (rxQ st) (txCur st) (rxCur st).
Definition set_txQ (st : jsonpipe) (q : list text) : jsonpipe :=
  mkPipe (txFd st) (rxFd st) (txEofFlag st) q (rxQ st) (txCur st) (rxCur st).
Definition set_rxQ (st : jsonpipe) (q : list text) : jsonpipe :=
  mkPipe (txFd st) (rxFd st) (txEofFlag st) (txQ st) q (txCur st) (rxCur st).
Definition set_txCur (st : jsonpipe) (c : text) : jsonpipe :=
  mkPipe (txFd st) (rxFd st) (txEofFlag st) (txQ st) (rxQ st) c (rxCur st).
Definition set_rxCur (st : jsonpipe) (c : text) : jsonpipe :=
  mkPipe (txFd st) (rxFd st) (txEofFlag st) (txQ st) (rxQ st) (txCur st) c.

Inductive shut_how := SHUT_RD | SHUT_WR.

(** What the object does to the outside world: fd system calls, the
    [notify_all] on [rxQNonempty], and the [eprintf] diagnostics. *)
Inductive io_event :=
| EvShutdown (fd : Z) (how : shut_how)
| EvClose (fd : Z)
| EvSend (fd : Z) (data : text)
| EvNotify
| EvNoNewlineAtEof (n : nat)
| EvWriteError.

(** The value returned by one [read(rxFd, buf, sizeof(buf))]. *)
Inductive read_result :=
| RdData (chunk : text)   (* nr > 0 *)
| RdEof                   (* nr == 0 *)
| RdEagain                (* nr < 0, errno == EAGAIN *)
| RdError.                (* nr < 0, any other errno *)

(** The value returned by one [send(txFd, ...)]. *)
Inductive send_result :=
| SendN (n : nat)
| SendEagain
| SendError.

Definition LF : ascii := "010".

(** [closeRx] (jsonpipe.cc 135-144). *)
Definition closeRx (st : jsonpipe) : jsonpipe * list io_event :=
  if (rxFd st =? -1)%Z then (st, [])
  else
    let ev := if (rxFd st =? txFd st)%Z then EvShutdown (rxFd st) SHUT_RD
              else EvClose (rxFd st) in
    (set_rxFd st (-1), [ev]).

(** [closeTx] (jsonpipe.cc 146-155). *)
Definition closeTx (st : jsonpipe) : jsonpipe * list io_event :=
  if (txFd st =? -1)%Z then (st, [])
  else
    let ev := if (txFd st =? rxFd st)%Z then EvShutdown (txFd st) SHUT_WR
              else EvClose (txFd st) in
    (set_txFd st (-1), [ev]).

(** [memchr(p, '\n', pend - p)]: the bytes before the first newline and
    the bytes after it. *)
Fixpoint memchr_nl (p : text) : option (text * text) :=
  match p with
  | [] => None
  | c :: r =>
    if (c =? LF)%char then Some ([], r)
    else match memchr_nl r with
         | Some (pre, post) => Some (c :: pre, post)
         | None => None
         end
  end.

(** The [while (p < pend)] loop of [rxWork] (jsonpipe.cc 72-90) over one
    chunk; [act] is [rxActivity].  Each turn that continues drops at least
    the newline, so [length p + 1] turns suffice. *)
Fixpoint rx_scan (fuel : nat) (p : text) (cur : text) (q : list text) (act : bool)
  : text * list text * bool :=
  match fuel with
  | 0 => (cur, q, act)
  | S f =>
    match p with
    | [] => (cur, q, act)
    | _ :: _ =>
      match memchr_nl p with
      | None => (cur ++ p, q, act)
      | Some (pre, post) =>
        if negb (List.length cur =? 0) then rx_scan f post [] (q ++ [cur ++ pre]) true
        else rx_scan f post cur (q ++ [pre]) true
      end
    end
  end.

(** The [while (1)] read loop of [rxWork] (jsonpipe.cc 52-92).  [reads]
    lists the results of the successive [read] calls; when it runs out the
    next read would block. *)
Fixpoint rx_loop (reads : list read_result) (st : jsonpipe) (act : bool)
  : jsonpipe * bool * list io_event :=
  match reads with
  | [] => (st, act, [])
  | RdEagain :: _ => (st, act, [])
  | RdError :: _ => let '(st', ev) := closeRx st in (st', act, ev)
  | RdEof :: _ =>
    let diag := if List.length (rxCur st) =? 0 then []
                else [EvNoNewlineAtEof (List.length (rxCur st))] in
    let '(st', ev) := closeRx (set_rxCur st []) in
    (st', act, diag ++ ev)
  | RdData c :: rs =>
    let '(cur, q, act') := rx_scan (S (List.length c)) c (rxCur st) (rxQ st) act in
    rx_loop rs (set_rxQ (set_rxCur st cur) q) act'
  end.

(** [rxWork] (jsonpipe.cc 48-96). *)
Definition rxWork (reads : list read_result) (st : jsonpipe) : jsonpipe * list io_event :=
  let '(st', act, ev) := rx_loop reads st false in
  (st', ev ++ (if act then [EvNotify] else [])).

(** [rxNonblock] (jsonpipe.cc 176-183). *)
Definition rxNonblock (st : jsonpipe) : text * jsonpipe :=
  match rxQ st with
  | [] => ([], st)
  | rx :: r => (rx, set_rxQ st r)
  end.

(** One test of the [while (rxQ.empty())] loop of [rxBlock]
    (jsonpipe.cc 185-197): return, or wait on [rxQNonempty]. *)
Inductive block_state :=
| Returned (rx : text) (st : jsonpipe)
| Waiting.

Definition rxBlock_check (st : jsonpipe) : block_state :=
  match rxQ st with
  | rx :: r => Returned rx (set_rxQ st r)
  | [] => if (rxFd st =? -1)%Z then Returned [] st else Waiting
  end.

(** A thread waiting in [rxQNonempty.wait(lock)] runs the loop test again
    only once the condition variable is notified. *)
Definition is_notify (e : io_event) : bool :=
  match e with EvNotify => true | _ => false end.

Definition waiter_after (ev : list io_event) (st : jsonpipe) : block_state :=
  if existsb is_notify ev then rxBlock_check st else Waiting.

(** Result of [txWork]: it may throw [runtime_error]. *)
Inductive tx_outcome :=
| TxDone (st : jsonpipe)
| TxThrown.

(** First step of each turn of [txWork]'s loop (jsonpipe.cc 101-104): take
    the next queued record, with its newline, as the current record. *)
Definition tx_materialize (st : jsonpipe) : jsonpipe :=
  match txCur st, txQ st with
  | [], m :: q => set_txQ (set_txCur st (m ++ [LF])) q
  | _, _ => st
  end.

(** [txWork] (jsonpipe.cc 98-133).  [sends] lists the results of the
    successive [send] calls; when it runs out the next send would block. *)
Fixpoint tx_loop (sends : list send_result) (st : jsonpipe) : tx_outcome * list io_event :=
  let st := tx_materialize st in
  match txCur st with
  | [] =>
    if txEofFlag st then let '(st', ev) := closeTx st in (TxDone st', ev)
    else (TxDone st, [])
  | cur =>
    let ev := EvSend (txFd st) cur in
    match sends with
    | [] | SendEagain :: _ => (TxDone st, [ev])
    | SendError :: _ => let '(st', ev') := closeTx st in (TxDone st', ev :: EvWriteError :: ev')
    | SendN n :: rs =>
      if n <? List.length cur then
        let '(o, ev') := tx_loop rs (set_txCur st (skipn n cur)) in (o, ev :: ev')
      else if n =? List.length cur then
        let '(o, ev') := tx_loop rs (set_txCur st []) in (o, ev :: ev')
      else (TxThrown, [ev])
    end
  end.

Definition txWork (st : jsonpipe) (sends : list send_result) : tx_outcome * list io_event :=
  tx_loop sends st.

(** ** Lock discipline of the public operations *)

Inductive member := MTxFd | MRxFd | MTxEofFlag | MTxQ | MRxQ | MTxCur | MRxCur.

Inductive lock_event :=
| Acquire             (* unique_lock<mutex> lock(mutex0) *)
| Release             (* end of the lock's scope *)
| Touch (m : member). (* a read or write of a member *)

(** The members [txWork] reads and writes (jsonpipe.cc 98-133). *)
Definition txWork_touches : list lock_event :=
  [Touch MTxCur; Touch MTxQ; Touch MTxEofFlag; Touch MTxFd].

Inductive operation := OpTx | OpTxEof | OpRxNonblock | OpRxBlock.

(** The sequence of lock events of each operation, in program order. *)
Definition trace_of (op : operation) : list lock_event :=
  match op with
  | OpTx => [Acquire; Touch MTxQ; Touch MTxQ] ++ txWork_touches ++ [Release]
  | OpTxEof => [Touch MTxEofFlag]
  | OpRxNonblock => [Acquire; Touch MRxQ; Touch MRxQ; Release]
  | OpRxBlock => [Acquire; Touch MRxQ; Touch MRxFd; Touch MRxQ; Release]
  end.

(** Every member access happens while [mutex0] is held. *)
Fixpoint guarded_from (held : bool) (tr : list lock_event) : bool :=
  match tr with
  | [] => true
  | Acquire :: r => guarded_from true r
  | Release :: r => guarded_from false r
  | Touch _ :: r => held && guarded_from held r
  end.

Definition guarded (tr : list lock_event) : bool := guarded_from false tr.

(** ** The other members of [jsonpipe] *)

(** [txQ.empty()] and the like. *)
Definition nonempty {A} (l : list A) : bool :=
  match l with [] => false | _ :: _ => true end.

(** The constructor [jsonpipe::jsonpipe] (jsonpipe.cc 8-13). *)
Definition jsonpipe_new : jsonpipe := mkPipe (-1) (-1) false [] [] [] [].

(** The destructor [jsonpipe::~jsonpipe] (jsonpipe.cc 15-19). *)
Definition jsonpipe_destroy (st : jsonpipe) : jsonpipe * list io_event :=
  let '(st1, ev1) := closeTx st in
  let '(st2, ev2) := closeRx st1 in
  (st2, ev1 ++ ev2).

(** [preSelect] (jsonpipe.cc 21-30): the fds it adds to [wfds] and to
    [rfds]. *)
Definition preSelect (st : jsonpipe) : list Z * list Z :=
  ((if negb (txFd st =? -1)%Z
       && (nonempty (txCur st) || nonempty (txQ st) || txEofFlag st)
    then [txFd st] else []),
   (if negb (rxFd st =? -1)%Z then [rxFd st] else [])).

(** [postSelect] (jsonpipe.cc 32-42); [rd_ready] and [wr_ready] are
    [FD_ISSET] of [rxFd] in [rfds] and of [txFd] in [wfds]. *)
Definition postSelect (st : jsonpipe) (rd_ready wr_ready : bool)
    (reads : list read_result) (sends : list send_result) : tx_outcome * list io_event :=
  let '(st1, ev1) :=
    if negb (rxFd st =? -1)%Z && rd_ready then rxWork reads st else (st, []) in
  if negb (txFd st1 =? -1)%Z && wr_ready then
    let '(o, ev2) := txWork st1 sends in (o, ev1 ++ ev2)
  else (TxDone st1, ev1).

(** The socket options [setFds] sets: [TCP_NODELAY] on [rxFd] and
    [O_NONBLOCK] on both fds ([SO_NOSIGPIPE] exists only where the platform
    defines it, and is left out). *)
Inductive fd_setup :=
| SetNoDelay (fd : Z)
| SetNonblock (fd : Z).

(** [setFds] (jsonpipe.cc 158-174); [None] is the [runtime_error] thrown
    when an fd is already set. *)
Definition setFds (st : jsonpipe) (tx_fd rx_fd : Z) : option (jsonpipe * list fd_setup) :=
  if negb (txFd st =? -1)%Z then None
  else if negb (rxFd st =? -1)%Z then None
  else Some (set_rxFd (set_txFd st tx_fd) rx_fd,
             [SetNoDelay rx_fd; SetNonblock tx_fd; SetNonblock rx_fd]).

(** [tx] (jsonpipe.cc 201-208): queue the record, and run a transmit pass
    when it is the only queued one. *)
Definition tx (st : jsonpipe) (s : text) (sends : list send_result)
  : tx_outcome * list io_event :=
  let st := set_txQ st (txQ st ++ [s]) in
  if List.length (txQ st) =? 1 then txWork st sends else (TxDone st, []).

(** [txEof] (jsonpipe.cc 210-213). *)
Definition txEof (st : jsonpipe) : jsonpipe :=
  mkPipe (txFd st) (rxFd st) true (txQ st) (rxQ st) (txCur st) (rxCur st).

(* ================================================================= *)
(** * Auxiliary definitions of the proofs *)

(** The value of a digit string, accumulated left to right as
    [rd_digits] does. *)
Definition digit_step (acc : nat) (c : ascii) : nat := acc * 10 + digit_val c.

(** A codec round-trips on the values satisfying [P]: every encoding starts
    with a byte that is neither blank nor a delimiter, and reading an
    encoding followed by a delimiter gives the value back and stops at the
    delimiter. *)
Definition codec_ok {T} (P : T -> Prop) (wr : T -> text) (rd : reader T) : Prop :=
  forall v, P v ->
    head_ok (wr v) = true
    /\ forall w rest, delim rest = true -> rd (wr v ++ rest) w = (true, rest, v).

(** The size pass is additive and bounds the write pass. *)
Definition size_ok {T} (sz : nat -> T -> nat) (wr : T -> text) : Prop :=
  forall x, (forall n, sz n x = n + sz 0 x) /\ List.length (wr x) <= sz 0 x.

(** One [arr[k] = v] of the map reader, as a step of a left fold. *)
Definition map_ins {K V} (cmp : K -> K -> comparison) (a : list (K * V)) (kv : K * V)
  : list (K * V) :=
  map_insert cmp (fst kv) (snd kv) a.

(** The order of the entries of a [std::map]. *)
Definition entry_lt {K V} (cmp : K -> K -> comparison) (a b : K * V) : Prop :=
  cmp (fst a) (fst b) = Lt.

(** The binding of [k] after one more entry, last one winning. *)
Definition last_step {K V} (cmp : K -> K -> comparison) (k : K) (o : option V) (kv : K * V)
  : option V :=
  match cmp k (fst kv) with Eq => Some (snd kv) | _ => o end.

Definition sum_sizes {T} (szT : nat -> T -> nat) (l : list T) : nat :=
  fold_right (fun x a => szT 0 x + a) 0 l.

Definition sum_entry_sizes {K T} (szK : nat -> K -> nat) (szT : nat -> T -> nat)
  (m : list (K * T)) : nat :=
  fold_right (fun kv a => szK 0 (fst kv) + szT 0 (snd kv) + 2 + a) 0 m.

(** Newline framing one byte at a time: a newline ends the partial record
    and enqueues it, any other byte extends it. *)
Definition rx_feed (cq : text * list text) (c : ascii) : text * list text :=
  let '(cur, q) := cq in
  if (c =? LF)%char then ([], q ++ [cur]) else (cur ++ [c], q).

Definition with_rx (st : jsonpipe) (cq : text * list text) : jsonpipe :=
  set_rxQ (set_rxCur st (fst cq)) (snd cq).

(** Elements each followed by a comma, as in [[1,2,]]. *)
Definition trailing_elems {T} (wrT : T -> text) (l : list T) : text :=
  List.concat (map (fun x => wrT x ++ [COMMA]) l).

(** Members each followed by a comma, as in [{k:1,}]. *)
Definition trailing_entries {K V} (wrK : K -> text) (wrV : V -> text) (l : list (K * V))
  : text :=
  List.concat (map (fun kv => wrK (fst kv) ++ [COLON] ++ wrV (snd kv) ++ [COMMA]) l).

Definition has_lf (p : text) : bool := existsb (fun c => (c =? LF)%char) p.

(** How many times [close] is called on [fd]. *)
Definition count_close (fd : Z) (ev : list io_event) : nat :=
  List.length (filter (fun e => match e with EvClose g => (g =? fd)%Z | _ => false end) ev).

(** Whether [fd] is one of the object's open fds. *)
Definition holds_fd (st : jsonpipe) (fd : Z) : nat :=
  if (fd =? txFd st)%Z || (fd =? rxFd st)%Z then 1 else 0.

(** A sequence of [closeTx] ([true]) and [closeRx] ([false]) calls, as
    [rxWork] and [txWork] make them. *)
Fixpoint run_closes (ops : list bool) (st : jsonpipe) : jsonpipe * list io_event :=
  match ops with
  | [] => (st, [])
  | o :: r =>
    let '(st1, ev1) := if o then closeTx st else closeRx st in
    let '(st2, ev2) := run_closes r st1 in
    (st2, ev1 ++ ev2)
  end.

(** The records [n] successive [rxBlock] calls return, as long as none of
    them waits. *)
Fixpoint rxBlock_drain (n : nat) (st : jsonpipe) : list text :=
  match n with
  | 0 => []
  | S n =>
    match rxBlock_check st with
    | Returned rx st' => rx :: rxBlock_drain n st'
    | Waiting => []
    end
  end.

(* ================================================================= *)
(** * Proofs about the codec *)

(** ** Auxiliary definitions for the number proofs *)

Section NumberDefs.
Local Open Scope Z_scope.

(** The level of [a / b]: [2^l <= a / b < 2^(l+1)]. *)
Definition at_level (l a b : Z) : Prop :=
  snd (scale2 l a b) <= fst (scale2 l a b) < 2 * snd (scale2 l a b).

(** One step of reading a decimal digit into a [Z]. *)
Definition zstep (acc d : Z) : Z := acc * 10 + d.

(** The character of a decimal digit given as a [Z]. *)
Definition zdigit (d : Z) : ascii := digit (Z.to_nat d).

(** The facts about a format used by the digit count [fmt_digits]. *)
Definition fmt_ok (f : float_format) : Prop :=
  1 <= fmt_prec f /\ 2 ^ fmt_prec f < 10 ^ (Z.of_nat (fmt_digits f) - 1)
  /\ (1 <= fmt_digits f)%nat.

End NumberDefs.

(** ** Facts about single bytes, settled by evaluation over all 256 *)

Ltac all_bytes c := destruct c as [[] [] [] [] [] [] [] []].

Lemma skip_nonspace (c : ascii) (r : text) :
  is_space c = false -> jsonSkipSpace (c :: r) = c :: r.
Proof. intros H. simpl. now rewrite H. Qed.

Lemma digit_not_special (c : ascii) :
  is_digit c = true ->
  is_space c = false /\ (c =? RBRACK)%char = false /\ (c =? RBRACE)%char = false.
Proof. all_bytes c; vm_compute; intuition congruence. Qed.

Lemma delim_not_digit (r : text) : delim r = true -> is_digit (peek r) = false.
Proof. unfold delim. generalize (peek r). intros c. all_bytes c; vm_compute; congruence. Qed.

Lemma delim_not_space (r : text) : delim r = true -> is_space (peek r) = false.
Proof. unfold delim. generalize (peek r). intros c. all_bytes c; vm_compute; congruence. Qed.

Lemma escape_char_read (c : ascii) (rest acc : text) :
  rd_string_body (escape_char c ++ rest) acc = rd_string_body rest (c :: acc).
Proof. all_bytes c; reflexivity. Qed.

Lemma space_LBRACK : is_space LBRACK = false. Proof. reflexivity. Qed.
Lemma space_RBRACK : is_space RBRACK = false. Proof. reflexivity. Qed.
Lemma space_LBRACE : is_space LBRACE = false. Proof. reflexivity. Qed.
Lemma space_RBRACE : is_space RBRACE = false. Proof. reflexivity. Qed.
Lemma space_COMMA : is_space COMMA = false. Proof. reflexivity. Qed.
Lemma space_COLON : is_space COLON = false. Proof. reflexivity. Qed.
Lemma eqb_COMMA_RBRACK : (COMMA =? RBRACK)%char = false. Proof. reflexivity. Qed.
Lemma eqb_COMMA_RBRACE : (COMMA =? RBRACE)%char = false. Proof. reflexivity. Qed.
Lemma eqb_RBRACK_COMMA : (RBRACK =? COMMA)%char = false. Proof. reflexivity. Qed.
Lemma eqb_RBRACE_COMMA : (RBRACE =? COMMA)%char = false. Proof. reflexivity. Qed.
Lemma eqb_self (c : ascii) : (c =? c)%char = true. Proof. apply Ascii.eqb_refl. Qed.

Create Rewrite HintDb chars.
#[global] Hint Rewrite space_LBRACK space_RBRACK space_LBRACE space_RBRACE space_COMMA
  space_COLON eqb_COMMA_RBRACK eqb_COMMA_RBRACE eqb_RBRACK_COMMA eqb_RBRACE_COMMA
  eqb_self : chars.

(** ** Unsigned integers *)

Lemma digit_spec (d : nat) : d < 10 -> is_digit (digit d) = true /\ digit_val (digit d) = d.
Proof.
  intros H. unfold is_digit, digit_val, digit.
  rewrite nat_ascii_embedding by lia.
  split; [apply andb_true_intro; split; apply Nat.leb_le|]; lia.
Qed.

Lemma wr_nat_fuel_spec (f n : nat) :
  n < f ->
  Forall (fun c => is_digit c = true) (wr_nat_fuel f n)
  /\ fold_left digit_step (wr_nat_fuel f n) 0 = n
  /\ wr_nat_fuel f n <> [].
Proof.
  revert n. induction f as [|f IH]; intros n Hn; [lia|].
  cbn [wr_nat_fuel].
  destruct (digit_spec (n mod 10)) as [Hd Hv]; [apply Nat.mod_upper_bound; lia|].
  destruct (n <? 10) eqn:E.
  - apply Nat.ltb_lt in E. cbn [app].
    split; [constructor; auto|]. split; [|congruence].
    cbn [fold_left]. unfold digit_step. rewrite Hv. rewrite Nat.mod_small; lia.
  - apply Nat.ltb_ge in E.
    destruct (IH (n / 10)) as (HF & HV & _).
    { assert (n / 10 < n) by (apply Nat.div_lt; lia). lia. }
    split; [apply Forall_app; split; auto|].
    split; [|destruct (wr_nat_fuel f (n / 10)); simpl; congruence].
    rewrite fold_left_app. cbn [fold_left]. rewrite HV. unfold digit_step. rewrite Hv.
    rewrite (Nat.div_mod_eq n 10) at 3. lia.
Qed.

Lemma rd_digits_app (s rest : text) (a : nat) :
  Forall (fun c => is_digit c = true) s ->
  rd_digits (s ++ rest) a = rd_digits rest (fold_left digit_step s a).
Proof.
  revert a. induction s as [|c s IH]; intros a H; [reflexivity|].
  inversion H; subst. simpl. rewrite H2. apply IH; auto.
Qed.

Lemma rd_digits_stop (rest : text) (a : nat) :
  is_digit (peek rest) = false -> rd_digits rest a = (a, rest).
Proof. destruct rest as [|c r]; simpl; [reflexivity|]. intros H. now rewrite H. Qed.

(** ** Round trip of a codec, and the shape of its encodings *)

Lemma head_ok_skip (e rest : text) :
  head_ok e = true -> jsonSkipSpace (e ++ rest) = e ++ rest.
Proof.
  destruct e as [|c e]; simpl; [discriminate|].
  intros H. destruct (is_space c); [discriminate|reflexivity].
Qed.

Lemma head_ok_peek (e rest : text) :
  head_ok e = true ->
  (peek (e ++ rest) =? RBRACK)%char = false /\ (peek (e ++ rest) =? RBRACE)%char = false.
Proof.
  destruct e as [|c e]; simpl; [discriminate|].
  intros H. apply andb_prop in H as [H H2]. apply andb_prop in H as [_ H1].
  apply negb_true_iff in H1, H2. auto.
Qed.

Lemma bool_codec_ok : codec_ok (fun _ => True) wrJson_bool rdJson_bool.
Proof.
  intros [] _; split; try reflexivity; intros w rest _; reflexivity.
Qed.

Lemma nat_codec_ok : codec_ok (fun _ => True) wrJson_nat rdJson_nat.
Proof.
  intros n _. unfold wrJson_nat, wr_nat.
  destruct (wr_nat_fuel_spec (S n) n) as (HF & HV & HN); [lia|].
  revert HF HV HN. generalize (wr_nat_fuel (S n) n) as s. intros s HF HV HN.
  destruct s as [|c s]; [congruence|].
  pose proof (Forall_inv HF) as Hc. cbv beta in Hc.
  destruct (digit_not_special c Hc) as (H1 & H2 & H3).
  split.
  - simpl. now rewrite H1, H2, H3.
  - intros w rest Hr. unfold rdJson_nat.
    rewrite <- app_comm_cons, skip_nonspace by assumption. simpl peek. rewrite Hc.
    rewrite app_comm_cons, rd_digits_app by exact HF.
    rewrite HV, rd_digits_stop by (apply delim_not_digit; auto). reflexivity.
Qed.

(** ** Rounding to binary floating point *)

Section FloatRounding.
Local Open Scope Z_scope.

Lemma rne_spec (n d : Z) : 0 < d -> - d <= 2 * (rne n d * d - n) <= d.
Proof.
  intros Hd. unfold rne.
  pose proof (Z.div_mod n d ltac:(lia)) as Hn. pose proof (Z.mod_pos_bound n d Hd) as Hr.
  set (q := n / d) in *. set (r := n mod d) in *.
  destruct (Z.compare_spec (2 * r) d); [destruct (Z.even q)|..]; nia.
Qed.

Lemma rne_exact (n d M : Z) : 0 < d -> - d < 2 * n - 2 * M * d < d -> rne n d = M.
Proof.
  intros Hd H. unfold rne.
  pose proof (Z.div_mod n d ltac:(lia)) as Hn. pose proof (Z.mod_pos_bound n d Hd) as Hr.
  set (q := n / d) in *. set (r := n mod d) in *.
  assert (q = M \/ q = M - 1) as [Hq|Hq] by nia; subst q;
  destruct (Z.compare_spec (2 * r) d); try destruct (Z.even _); nia.
Qed.

Lemma pow2_pos (x : Z) : 0 < 2 ^ Z.max x 0.
Proof. apply Z.pow_pos_nonneg; lia. Qed.

Lemma scale2_shift (e j a b : Z) : 0 <= j ->
  fst (scale2 e a b) * snd (scale2 (e + j) a b)
  = fst (scale2 (e + j) a b) * snd (scale2 e a b) * 2 ^ j.
Proof.
  intros Hj. unfold scale2; cbn [fst snd].
  transitivity (a * b * 2 ^ (Z.max (- e) 0 + Z.max (e + j) 0)).
  - rewrite Z.pow_add_r by lia. ring.
  - replace (Z.max (- e) 0 + Z.max (e + j) 0) with (Z.max (- (e + j)) 0 + Z.max e 0 + j) by lia.
    rewrite !Z.pow_add_r by lia. ring.
Qed.

Lemma pow_cmp (x y al be X W : Z) :
  0 <= X -> 0 <= W -> 0 <= al -> 0 <= be ->
  x < 2 ^ al -> 2 ^ be <= y -> al + X <= be + W -> x * 2 ^ X < y * 2 ^ W.
Proof.
  intros HX HW Ha Hb Hx Hy Hs.
  assert (0 < 2 ^ X) by (apply Z.pow_pos_nonneg; lia).
  assert (0 < 2 ^ W) by (apply Z.pow_pos_nonneg; lia).
  apply Z.lt_le_trans with (2 ^ al * 2 ^ X); [nia|].
  rewrite <- Z.pow_add_r by lia.
  apply Z.le_trans with (2 ^ (be + W)); [apply Z.pow_le_mono_r; lia|].
  rewrite Z.pow_add_r by lia. nia.
Qed.


Lemma ilog2_frac_spec (a b : Z) : 0 < a -> 0 < b -> at_level (ilog2_frac a b) a b.
Proof.
  intros Ha Hb.
  destruct (Z.log2_spec a Ha) as [Ha1 Ha2]. destruct (Z.log2_spec b Hb) as [Hb1 Hb2].
  pose proof (Z.log2_nonneg a). pose proof (Z.log2_nonneg b).
  set (la := Z.log2 a) in *. set (lb := Z.log2 b) in *.
  unfold Z.succ in Ha2, Hb2.
  assert (Hlo : b * 2 ^ Z.max (la - lb - 1) 0 < a * 2 ^ Z.max (- (la - lb - 1)) 0).
  { apply (pow_cmp _ _ (lb + 1) la); lia. }
  assert (Hhi : a * 2 ^ Z.max (- (la - lb)) 0 < b * 2 ^ (Z.max (la - lb) 0 + 1)).
  { apply (pow_cmp _ _ (la + 1) lb); lia. }
  rewrite Z.pow_add_r in Hhi by lia.
  pose proof (scale2_shift (la - lb - 1) 1 a b ltac:(lia)) as Hs.
  replace (la - lb - 1 + 1) with (la - lb) in Hs by lia.
  unfold ilog2_frac, at_level. fold la lb.
  unfold scale2 in *; cbn [fst snd] in *.
  pose proof (pow2_pos (- (la - lb))). pose proof (pow2_pos (la - lb)).
  pose proof (pow2_pos (- (la - lb - 1))). pose proof (pow2_pos (la - lb - 1)).
  destruct (Z.ltb_spec (a * 2 ^ Z.max (- (la - lb)) 0) (b * 2 ^ Z.max (la - lb) 0));
    cbn [fst snd]; nia.
Qed.

Lemma at_level_unique (l1 l2 a b : Z) : 0 < a -> 0 < b ->
  at_level l1 a b -> at_level l2 a b -> l1 = l2.
Proof.
  intros Ha Hb.
  assert (forall x y, x < y -> at_level x a b -> at_level y a b -> False) as K.
  { intros x y Hxy Hx Hy. unfold at_level in *.
    pose proof (scale2_shift x (y - x) a b ltac:(lia)) as Hs.
    replace (x + (y - x)) with y in Hs by lia.
    assert (2 <= 2 ^ (y - x)).
    { replace 2 with (2 ^ 1) at 1 by reflexivity. apply Z.pow_le_mono_r; lia. }
    assert (0 < snd (scale2 x a b) /\ 0 < snd (scale2 y a b)) as [Dx Dy]
      by (unfold scale2; cbn [snd]; pose proof (pow2_pos x); pose proof (pow2_pos y); nia).
    revert Hx Hy Hs Dx Dy.
    generalize (fst (scale2 x a b)) (snd (scale2 x a b)) (fst (scale2 y a b)) (snd (scale2 y a b)).
    intros nx dx ny dy Hx Hy Hs Dx Dy.
    assert (nx * dy < 2 * dx * dy) by nia.
    assert (2 * dx * dy <= 2 * dx * ny) by nia.
    assert (2 * (dx * ny) <= 2 ^ (y - x) * (dx * ny)) by nia.
    nia. }
  intros H1 H2. destruct (Z.lt_trichotomy l1 l2) as [H|[H|H]]; [exfalso; eauto|exact H|].
  exfalso; eauto.
Qed.

Lemma at_level_up (e i a b : Z) : 0 <= i -> 0 < a -> 0 < b ->
  2 ^ i * snd (scale2 e a b) <= fst (scale2 e a b) < 2 ^ (i + 1) * snd (scale2 e a b) ->
  at_level (e + i) a b.
Proof.
  intros Hi Ha Hb H. pose proof (scale2_shift e i a b Hi) as Hs.
  rewrite Z.pow_add_r in H by lia.
  assert (0 < 2 ^ i) by (apply Z.pow_pos_nonneg; lia).
  unfold at_level, scale2 in *; cbn [fst snd] in *.
  pose proof (pow2_pos (- e)). pose proof (pow2_pos e).
  pose proof (pow2_pos (- (e + i))). pose proof (pow2_pos (e + i)).
  nia.
Qed.

Lemma at_level_down (e a b : Z) : 0 < a -> 0 < b ->
  snd (scale2 e a b) <= 2 * fst (scale2 e a b) < 2 * snd (scale2 e a b) ->
  at_level (e - 1) a b.
Proof.
  intros Ha Hb H. pose proof (scale2_shift (e - 1) 1 a b ltac:(lia)) as Hs.
  replace (e - 1 + 1) with e in Hs by lia.
  unfold at_level, scale2 in *; cbn [fst snd] in *.
  pose proof (pow2_pos (- e)). pose proof (pow2_pos e).
  pose proof (pow2_pos (- (e - 1))). pose proof (pow2_pos (e - 1)).
  nia.
Qed.

Lemma digits2_size (p : positive) : digits2_pos p = Pos.size p.
Proof. induction p; cbn; congruence. Qed.

Lemma log2_size (p : positive) : Z.log2 (Zpos p) = Zpos (Pos.size p) - 1.
Proof. destruct p; cbn [Z.log2 Pos.size]; try rewrite Pos2Z.inj_succ; lia. Qed.

Lemma bounded_facts (prec emax : Z) (m : positive) (e : Z) : bounded prec emax m e = true ->
  Z.max (Z.log2 (Zpos m) + 1 + e - prec) (emin prec emax) = e /\ e <= emax - prec.
Proof.
  unfold bounded, canonical_mantissa, fexp.
  rewrite andb_true_iff, Z.eqb_eq, Z.leb_le, digits2_size, log2_size.
  lia.
Qed.

Lemma scale2_pos (e a b : Z) : 0 < a -> 0 < b ->
  0 < fst (scale2 e a b) /\ 0 < snd (scale2 e a b).
Proof.
  intros. unfold scale2; cbn [fst snd].
  pose proof (pow2_pos e). pose proof (pow2_pos (- e)). split; nia.
Qed.

Lemma round_frac_exact (prec emax : Z) (s : bool) (m0 : positive) (e0 a b u v : Z) :
  1 <= prec -> bounded prec emax m0 e0 = true ->
  0 < a -> 0 < b -> 0 < v ->
  fst (scale2 e0 a b) * v = snd (scale2 e0 a b) * (Zpos m0 * v + u) ->
  - v < 2 * u < v ->
  (Zpos m0 = 2 ^ (prec - 1) -> e0 <> emin prec emax -> - v < 4 * u) ->
  round_frac prec emax s a b = S754_finite s m0 e0.
Proof.
  intros Hp Hbd Ha Hb Hv H Hu Hedge.
  destruct (bounded_facts _ _ _ _ Hbd) as [Hc He].
  pose proof (Z.log2_spec (Zpos m0) eq_refl) as [Hm1 Hm2].
  pose proof (Z.log2_nonneg (Zpos m0)).
  unfold Z.succ in Hm2.
  set (q := Z.log2 (Zpos m0) + 1) in *.
  replace (Z.log2 (Zpos m0)) with (q - 1) in Hm1 by (unfold q; lia).
  assert (Hqp : 1 <= q <= prec) by lia.
  clearbody q.
  destruct (scale2_pos e0 a b Ha Hb) as [HN0 HD0].
  set (N0 := fst (scale2 e0 a b)) in *. set (D0 := snd (scale2 e0 a b)) in *.
  set (M := Zpos m0) in *.
  assert (HP : 0 < 2 ^ (q - 1)) by (apply Z.pow_pos_nonneg; lia).
  assert (HQ : 2 ^ q = 2 * 2 ^ (q - 1)).
  { rewrite <- Z.pow_succ_r by lia. f_equal; lia. }
  assert (Hr0 : rne N0 D0 = M).
  { apply rne_exact; [lia|].
    assert (Hx : (2 * N0 - 2 * M * D0) * v = (2 * u) * D0) by nia.
    revert Hx. generalize (2 * N0 - 2 * M * D0). intros x Hx.
    split; nia. }
  (* the exponent of [a / b] *)
  pose proof (ilog2_frac_spec a b Ha Hb) as HL.
  unfold round_frac.
  assert (Hat0 : forall e, e = e0 ->
    (let '(n, d) := scale2 e a b in
     let m := rne n d in
     let '(m, e) := if (m =? 2 ^ prec) then (2 ^ (prec - 1), e + 1) else (m, e) in
     match m with
     | Zpos p => if (e <=? emax - prec) then S754_finite s p e else S754_infinity s
     | _ => S754_zero s
     end) = S754_finite s m0 e0).
  { intros e ->. rewrite (surjective_pairing (scale2 e0 a b)). fold N0 D0. rewrite Hr0.
    assert (M < 2 ^ prec).
    { apply Z.lt_le_trans with (2 ^ q); [lia|]. apply Z.pow_le_mono_r; lia. }
    unfold M in *. destruct (Z.eqb_spec (Zpos m0) (2 ^ prec)); [lia|].
    destruct (Z.leb_spec e0 (emax - prec)); [reflexivity|lia]. }
  destruct (Z_lt_le_dec u 0) as [Hneg|Hnn];
    [destruct (Z.eq_dec M (2 ^ (q - 1))) as [Hpow|Hnp]|].
  - (* a power of two approached from below *)
    assert (HL' : ilog2_frac a b = e0 + q - 2).
    { destruct (Z.eq_dec q 1) as [Hq1|Hq1].
      + apply (at_level_unique _ _ a b Ha Hb HL).
        replace (e0 + q - 2) with (e0 - 1) by lia. apply at_level_down; [exact Ha|exact Hb|].
        fold N0 D0. subst q. cbn in Hpow.
        assert (Hx : (2 * N0 - D0) * v = D0 * (v + 2 * u)) by nia.
        assert (Hy : (2 * N0 - 2 * D0) * v = D0 * (2 * u)) by nia.
        revert Hx Hy. generalize (2 * N0 - D0) (2 * N0 - 2 * D0). intros x y Hx Hy.
        split; nia.
      + apply (at_level_unique _ _ a b Ha Hb HL).
        replace (e0 + q - 2) with (e0 + (q - 2)) by lia. apply at_level_up; [lia|exact Ha|exact Hb|].
        fold N0 D0. replace (q - 2 + 1) with (q - 1) by lia.
        assert (HR : 2 ^ (q - 1) = 2 * 2 ^ (q - 2)).
        { rewrite <- Z.pow_succ_r by lia. f_equal; lia. }
        assert (HP2 : 1 <= 2 ^ (q - 2)).
        { pose proof (Z.pow_pos_nonneg 2 (q - 2) ltac:(lia) ltac:(lia)). lia. }
        assert (Hx : (N0 - 2 ^ (q - 2) * D0) * v = D0 * (2 ^ (q - 2) * v + u)) by nia.
        assert (Hy : (N0 - 2 ^ (q - 1) * D0) * v = D0 * u) by nia.
        revert Hx Hy. generalize (N0 - 2 ^ (q - 2) * D0) (N0 - 2 ^ (q - 1) * D0). intros x y Hx Hy.
        assert (0 <= 2 ^ (q - 2) * v + u) by nia.
        split; nia. }
    rewrite HL'.
    destruct (Z.eq_dec e0 (emin prec emax)) as [Hmin|Hmin].
    + apply Hat0. lia.
    + assert (Hq : q = prec) by lia. subst q.
      assert (Hu4 : - v < 4 * u) by auto.
      replace (Z.max (e0 + prec - 2 + 1 - prec) (emin prec emax)) with (e0 - 1) by lia.
      pose proof (scale2_shift (e0 - 1) 1 a b ltac:(lia)) as Hs.
      replace (e0 - 1 + 1) with e0 in Hs by lia. fold N0 D0 in Hs.
      destruct (scale2_pos (e0 - 1) a b Ha Hb) as [HN1 HD1].
      rewrite (surjective_pairing (scale2 (e0 - 1) a b)).
      set (N1 := fst (scale2 (e0 - 1) a b)) in *. set (D1 := snd (scale2 (e0 - 1) a b)) in *.
      assert (Hpr : 2 ^ prec = 2 * 2 ^ (prec - 1)) by (rewrite HQ; reflexivity).
      assert (Hr1 : rne N1 D1 = 2 ^ prec).
      { apply rne_exact; [lia|].
        assert (Hx : (2 * N1 - 2 * 2 ^ prec * D1) * (D0 * v) = (4 * u) * (D1 * D0)).
        { rewrite Hpr, <- Hpow.
          transitivity (2 * (N1 * D0) * v - 4 * M * D1 * D0 * v); [ring|].
          rewrite Hs. transitivity (4 * D1 * (N0 * v) - 4 * M * D1 * D0 * v); [ring|].
          rewrite H. ring. }
        assert (0 < D0 * v) by nia. assert (0 < D1 * D0) by nia.
        revert Hx. generalize (2 * N1 - 2 * 2 ^ prec * D1). intros x Hx.
        split; nia. }
      rewrite Hr1, Z.eqb_refl, <- Hpow. unfold M.
      replace (e0 - 1 + 1) with e0 by lia.
      destruct (Z.leb_spec e0 (emax - prec)); [reflexivity|lia].
  - apply Hat0.
    assert (HL' : ilog2_frac a b = e0 + (q - 1)).
    { apply (at_level_unique _ _ a b Ha Hb HL). apply at_level_up; [lia|exact Ha|exact Hb|].
      fold N0 D0. replace (q - 1 + 1) with q by lia.
      assert (M >= 2 ^ (q - 1) + 1) by lia.
      assert (Hx : (N0 - 2 ^ (q - 1) * D0) * v = D0 * ((M - 2 ^ (q - 1)) * v + u)) by nia.
      assert (Hy : (N0 - 2 ^ q * D0) * v = D0 * ((M - 2 ^ q) * v + u)) by nia.
      assert (0 <= (M - 2 ^ (q - 1)) * v + u) by nia.
      assert ((M - 2 ^ q) * v + u < 0) by nia.
      revert Hx Hy. generalize (N0 - 2 ^ (q - 1) * D0) (N0 - 2 ^ q * D0). intros x y Hx Hy.
      split; nia. }
    rewrite HL'. lia.
  - apply Hat0.
    assert (HL' : ilog2_frac a b = e0 + (q - 1)).
    { apply (at_level_unique _ _ a b Ha Hb HL). apply at_level_up; [lia|exact Ha|exact Hb|].
      fold N0 D0. replace (q - 1 + 1) with q by lia.
      assert (Hx : (N0 - 2 ^ (q - 1) * D0) * v = D0 * ((M - 2 ^ (q - 1)) * v + u)) by nia.
      assert (Hy : (N0 - 2 ^ q * D0) * v = D0 * ((M - 2 ^ q) * v + u)) by nia.
      assert (0 <= (M - 2 ^ (q - 1)) * v + u) by nia.
      assert ((M - 2 ^ q) * v + u < 0) by nia.
      revert Hx Hy. generalize (N0 - 2 ^ (q - 1) * D0) (N0 - 2 ^ q * D0). intros x y Hx Hy.
      split; nia. }
    rewrite HL'. lia.
Qed.

Lemma zdigits_fuel_spec (fuel : nat) (n : Z) :
  0 <= n < 10 ^ (Z.of_nat fuel + 1) ->
  Forall (fun d => 0 <= d <= 9) (zdigits_fuel fuel n)
  /\ fold_left zstep (zdigits_fuel fuel n) 0 = n
  /\ zdigits_fuel fuel n <> []
  /\ (0 < n -> 10 ^ (Z.of_nat (List.length (zdigits_fuel fuel n)) - 1) <= n).
Proof.
  revert n. induction fuel as [|f IH]; intros n Hn.
  - cbn. split; [constructor; auto; lia|]. split; [reflexivity|]. split; [congruence|].
    intros Hp. cbn. lia.
  - cbn [zdigits_fuel]. destruct (Z.ltb_spec n 10) as [Hl|Hl].
    + cbn. split; [constructor; auto; lia|]. split; [reflexivity|]. split; [congruence|].
      intros Hp. cbn. lia.
    + destruct (IH (n / 10)) as (HF & HV & HN & HL).
      { split; [apply Z.div_pos; lia|].
        apply Z.div_lt_upper_bound; [lia|].
        rewrite <- Z.pow_succ_r by lia. replace (Z.succ (Z.of_nat f + 1)) with (Z.of_nat (S f) + 1) by lia.
        lia. }
      pose proof (Z.div_mod n 10 ltac:(lia)). pose proof (Z.mod_pos_bound n 10 ltac:(lia)).
      split; [apply Forall_app; split; [exact HF|constructor; [lia|constructor]]|].
      split; [rewrite fold_left_app; cbn; rewrite HV; unfold zstep; lia|].
      split; [destruct (zdigits_fuel f (n / 10)); cbn; congruence|].
      intros Hpos. rewrite length_app. cbn [List.length].
      assert (1 <= n / 10) by (apply Z.div_le_lower_bound; lia).
      specialize (HL ltac:(lia)).
      replace (Z.of_nat (List.length (zdigits_fuel f (n / 10)) + 1) - 1)
        with (Z.succ (Z.of_nat (List.length (zdigits_fuel f (n / 10))) - 1)) by lia.
      assert (1 <= List.length (zdigits_fuel f (n / 10)))%nat by (destruct (zdigits_fuel f (n / 10)); [congruence|cbn; lia]).
      rewrite Z.pow_succ_r by lia. lia.
Qed.

Lemma zdigits_spec (n : Z) : 0 <= n ->
  Forall (fun d => 0 <= d <= 9) (zdigits n)
  /\ fold_left zstep (zdigits n) 0 = n
  /\ zdigits n <> []
  /\ (0 < n -> 10 ^ (Z.of_nat (List.length (zdigits n)) - 1) <= n).
Proof.
  intros Hn. apply zdigits_fuel_spec. split; [exact Hn|].
  rewrite Z2Nat.id by apply Z.log2_nonneg.
  destruct (Z.eq_dec n 0) as [->|Hn0]; [reflexivity|].
  destruct (Z.log2_spec n ltac:(lia)) as [_ H2].
  apply Z.lt_le_trans with (2 ^ Z.succ (Z.log2 n)); [exact H2|].
  replace (Z.log2 n + 1) with (Z.succ (Z.log2 n)) by lia.
  apply Z.pow_le_mono_l. lia.
Qed.


Lemma zdigit_spec (d : Z) : 0 <= d <= 9 ->
  is_digit (zdigit d) = true /\ Z.of_nat (digit_val (zdigit d)) = d.
Proof.
  intros H. unfold zdigit. destruct (digit_spec (Z.to_nat d)) as [H1 H2]; [lia|].
  rewrite H1, H2. split; [reflexivity|lia].
Qed.

Lemma rd_zdigits_app (ds : list Z) (rest : text) (acc cnt : Z) :
  Forall (fun d => 0 <= d <= 9) ds ->
  rd_zdigits (map zdigit ds ++ rest) acc cnt
  = rd_zdigits rest (fold_left zstep ds acc) (cnt + Z.of_nat (List.length ds)).
Proof.
  revert acc cnt. induction ds as [|d ds IH]; intros acc cnt H.
  - cbn. rewrite Z.add_0_r. reflexivity.
  - inversion H as [|? ? Hd Hds]; subst.
    destruct (zdigit_spec d Hd) as [H1 H2].
    cbn [map app rd_zdigits fold_left]. rewrite H1, H2.
    rewrite IH by exact Hds.
    replace (cnt + Z.of_nat (List.length (d :: ds))) with (cnt + 1 + Z.of_nat (List.length ds))
      by (cbn [List.length]; lia).
    reflexivity.
Qed.

Lemma rd_zdigits_stop (rest : text) (acc cnt : Z) :
  is_digit (peek rest) = false -> rd_zdigits rest acc cnt = (acc, cnt, rest).
Proof. destruct rest as [|c r]; cbn; [reflexivity|]. intros H. now rewrite H. Qed.

(** Reading the digits of [n] back. *)
Lemma wr_zdec_read (n : Z) (rest : text) (cnt : Z) : 0 <= n ->
  is_digit (peek rest) = false ->
  rd_zdigits (wr_zdec n ++ rest) 0 cnt
  = (n, cnt + Z.of_nat (List.length (zdigits n)), rest).
Proof.
  intros Hn Hr. destruct (zdigits_spec n Hn) as (HF & HV & _ & _).
  unfold wr_zdec. fold zdigit. rewrite rd_zdigits_app by exact HF.
  rewrite HV. apply rd_zdigits_stop, Hr.
Qed.

Lemma wr_zdec_head (n : Z) : 0 <= n ->
  exists c r, wr_zdec n = c :: r /\ is_digit c = true.
Proof.
  intros Hn. destruct (zdigits_spec n Hn) as (HF & _ & HN & _).
  unfold wr_zdec. destruct (zdigits n) as [|d ds]; [congruence|].
  inversion HF; subst. exists (digit (Z.to_nat d)), (map (fun d => digit (Z.to_nat d)) ds).
  split; [reflexivity|]. apply (zdigit_spec d); assumption.
Qed.

Lemma round_digits_spec (A F : Z) (p : nat) : 0 < A -> (1 <= p)%nat ->
  exists r k, 0 <= k /\ 0 < r /\ - 10 ^ k <= 2 * (r * 10 ^ k - A) <= 10 ^ k
  /\ (k = 0 -> r = A) /\ (0 < k -> 10 ^ (k + Z.of_nat p - 1) <= A)
  /\ 0 < fst (round_digits A F p)
  /\ ((fst (round_digits A F p) = r /\ snd (round_digits A F p) = F + k)
      \/ (r = 10 * fst (round_digits A F p) /\ snd (round_digits A F p) = F + k + 1)).
Proof.
  intros HA Hp. destruct (zdigits_spec A ltac:(lia)) as (_ & _ & _ & HL).
  specialize (HL HA).
  unfold round_digits.
  set (L := Z.of_nat (List.length (zdigits A))) in *.
  destruct (Z.leb_spec (L - Z.of_nat p) 0) as [Hk|Hk].
  - exists A, 0. cbn [fst snd]. rewrite Z.add_0_r. repeat split; try lia.
    all: left; split; reflexivity.
  - set (k := L - Z.of_nat p) in *.
    assert (Hk10 : 0 < 10 ^ k) by (apply Z.pow_pos_nonneg; lia).
    assert (HkA : 10 ^ k <= A).
    { apply Z.le_trans with (10 ^ (L - 1)); [apply Z.pow_le_mono_r; lia|exact HL]. }
    pose proof (rne_spec A (10 ^ k) Hk10) as Hr.
    assert (Hr0 : 0 < rne A (10 ^ k)) by nia.
    exists (rne A (10 ^ k)), k.
    assert (10 ^ (k + Z.of_nat p - 1) <= A) by (replace (k + Z.of_nat p - 1) with (L - 1) by lia; exact HL).
    assert (Hp1 : 0 < 10 ^ (Z.of_nat p - 1)) by (apply Z.pow_pos_nonneg; lia).
    destruct (Z.eqb_spec (rne A (10 ^ k)) (10 ^ Z.of_nat p)) as [Hc|Hc]; cbn [fst snd].
    + repeat split; try lia.
      all: right; split; [|reflexivity]; rewrite Hc, <- Z.pow_succ_r by lia; f_equal; lia.
    + repeat split; try lia.
      all: left; split; reflexivity.
Qed.


Lemma fmt_ok_all (f : float_format) : fmt_ok f.
Proof. destruct f; unfold fmt_ok; cbn; repeat split; lia. Qed.

Lemma pow10_eq (i j i' j' : Z) : 0 <= i -> 0 <= j -> 0 <= i' -> 0 <= j' ->
  i + j = i' + j' -> 10 ^ i * 10 ^ j = 10 ^ i' * 10 ^ j'.
Proof. intros. rewrite <- !Z.pow_add_r by lia. f_equal. lia. Qed.

(** A decimal [d * 10^E] close enough to [m0 * 2^e0] rounds back to it. *)
Lemma readback (f : float_format) (s : bool) (m0 : positive) (e0 d E r k : Z) :
  bounded (fmt_prec f) (fmt_emax f) m0 e0 = true ->
  let A := fst (dec_of_bin m0 e0) in let F := snd (dec_of_bin m0 e0) in
  0 <= k -> 0 < r -> - 10 ^ k <= 2 * (r * 10 ^ k - A) <= 10 ^ k ->
  (k = 0 -> r = A) -> (0 < k -> 10 ^ (k + Z.of_nat (fmt_digits f) - 1) <= A) ->
  0 < d ->
  ((d = r /\ E = F + k) \/ (r = 10 * d /\ E = F + k + 1)) ->
  round_dec f s d E = S754_finite s m0 e0.
Proof.
  intros Hbd A F Hk Hr Hu Hk0 HkA Hd HdE.
  destruct (fmt_ok_all f) as (Hp & Hpd & Hp1).
  set (prec := fmt_prec f) in *. set (p := fmt_digits f) in *.
  destruct (bounded_facts _ _ _ _ Hbd) as [Hc He].
  pose proof (Z.log2_spec (Zpos m0) eq_refl) as [_ Hm2].
  assert (HM : Zpos m0 < 2 ^ prec).
  { apply Z.lt_le_trans with (2 ^ Z.succ (Z.log2 (Zpos m0))); [exact Hm2|].
    apply Z.pow_le_mono_r; lia. }
  (* [A = m0 * v] with [v = 2^e0] or [5^-e0] *)
  set (v := if (0 <=? e0) then 2 ^ e0 else 5 ^ (- e0)).
  assert (Hv : 0 < v) by (unfold v; destruct (Z.leb_spec 0 e0); apply Z.pow_pos_nonneg; lia).
  assert (HA : A = Zpos m0 * v) by (unfold A, v, dec_of_bin; destruct (0 <=? e0); reflexivity).
  assert (Hpp : 0 < 10 ^ (Z.of_nat p - 1)) by (apply Z.pow_pos_nonneg; lia).
  (* the error bounds *)
  assert (Hsmall : 0 < k -> 2 * (10 ^ k * 10 ^ (Z.of_nat p - 1)) <= 2 * (Zpos m0 * v)).
  { intros Hk'. rewrite <- Z.pow_add_r by lia. specialize (HkA Hk').
    replace (k + (Z.of_nat p - 1)) with (k + Z.of_nat p - 1) by lia. lia. }
  unfold round_dec. destruct (Z.eqb_spec d 0) as [|_]; [lia|].
  assert (0 < d * 10 ^ Z.max E 0) by (apply Z.mul_pos_pos; [lia|apply Z.pow_pos_nonneg; lia]).
  assert (0 < 10 ^ Z.max (- E) 0) by (apply Z.pow_pos_nonneg; lia).
  apply (round_frac_exact _ _ _ _ _ _ _ (r * 10 ^ k - A) v); try lia; try exact Hbd.
  - (* the exact values agree *)
    replace (Zpos m0 * v + (r * 10 ^ k - A)) with (r * 10 ^ k) by lia.
    unfold scale2; cbn [fst snd].
    unfold F, dec_of_bin in HdE. unfold v.
    destruct (Z.leb_spec 0 e0) as [He0|He0]; cbn [snd] in HdE.
    + replace (Z.max (- e0) 0) with 0 by lia. replace (Z.max e0 0) with e0 by lia.
      destruct HdE as [[-> ->]|[-> ->]].
      * replace (Z.max (0 + k) 0) with k by lia. replace (Z.max (- (0 + k)) 0) with 0 by lia. ring.
      * replace (Z.max (0 + k + 1) 0) with (k + 1) by lia.
        replace (Z.max (- (0 + k + 1)) 0) with 0 by lia. rewrite Z.pow_add_r by lia. ring.
    + replace (Z.max (- e0) 0) with (- e0) by lia. replace (Z.max e0 0) with 0 by lia.
      assert (H10 : 2 ^ (- e0) * 5 ^ (- e0) = 10 ^ (- e0)) by (rewrite <- Z.pow_mul_l; reflexivity).
      destruct HdE as [[-> ->]|[-> ->]].
      * transitivity (r * (10 ^ Z.max (e0 + k) 0 * 10 ^ (- e0))); [rewrite <- H10; ring|].
        rewrite (pow10_eq (Z.max (e0 + k) 0) (- e0) (Z.max (- (e0 + k)) 0) k) by lia. ring.
      * transitivity (d * (10 ^ Z.max (e0 + k + 1) 0 * 10 ^ (- e0))); [rewrite <- H10; ring|].
        rewrite (pow10_eq (Z.max (e0 + k + 1) 0) (- e0) (Z.max (- (e0 + k + 1)) 0) (k + 1)) by lia.
        rewrite Z.pow_add_r by lia. ring.
  - destruct (Z.eq_dec k 0) as [->|Hk']; [rewrite Hk0 by reflexivity; lia|].
    specialize (Hsmall ltac:(lia)). nia.
  - intros Hpow _. destruct (Z.eq_dec k 0) as [->|Hk']; [rewrite Hk0 by reflexivity; lia|].
    specialize (Hsmall ltac:(lia)). rewrite Hpow in Hsmall. change (fmt_prec f) with prec in Hsmall.
    assert (Htw : 2 * 2 ^ (prec - 1) = 2 ^ prec) by (rewrite <- Z.pow_succ_r by lia; f_equal; lia).
    assert (H2k : 2 * 10 ^ k < v).
    { apply (Z.mul_lt_mono_pos_r (10 ^ (Z.of_nat p - 1))); [lia|].
      revert Hsmall Hpd Hpp Hv. rewrite <- Htw.
      generalize (10 ^ k) (10 ^ (Z.of_nat p - 1)) (2 ^ (prec - 1)). intros X Y P H1 H2 H3 H4.
      assert (2 * P * v < Y * v) by (apply Z.mul_lt_mono_pos_r; lia). lia. }
    lia.
Qed.

Lemma spec_float_eqb_eq (x y : spec_float) : spec_float_eqb x y = true -> x = y.
Proof.
  destruct x, y; cbn; try discriminate; auto;
    repeat rewrite andb_true_iff; intros H;
    repeat match goal with
           | H : _ /\ _ |- _ => destruct H
           | H : Bool.eqb _ _ = true |- _ => apply eqb_prop in H
           | H : Pos.eqb _ _ = true |- _ => apply Pos.eqb_eq in H
           | H : Z.eqb _ _ = true |- _ => apply Z.eqb_eq in H
           end; subst; reflexivity.
Qed.

(** The digits chosen for a finite value read back as that value. *)
Lemma shortest_spec (f : float_format) (s : bool) (m0 : positive) (e0 : Z) :
  bounded (fmt_prec f) (fmt_emax f) m0 e0 = true ->
  0 < fst (shortest f s m0 e0)
  /\ round_dec f s (fst (shortest f s m0 e0)) (snd (shortest f s m0 e0)) = S754_finite s m0 e0.
Proof.
  intros Hbd. destruct (fmt_ok_all f) as (_ & _ & Hp1).
  assert (HA : 0 < fst (dec_of_bin m0 e0)).
  { unfold dec_of_bin. destruct (Z.leb_spec 0 e0); cbn [fst];
      apply Z.mul_pos_pos; try lia; apply Z.pow_pos_nonneg; lia. }
  unfold shortest. rewrite (surjective_pairing (dec_of_bin m0 e0)).
  assert (Hgen : forall fuel p, (1 <= p)%nat -> (p + fuel = fmt_digits f)%nat ->
    0 < fst (shortest_from f (S754_finite s m0 e0) s (fst (dec_of_bin m0 e0))
               (snd (dec_of_bin m0 e0)) p fuel)
    /\ round_dec f s (fst (shortest_from f (S754_finite s m0 e0) s (fst (dec_of_bin m0 e0))
               (snd (dec_of_bin m0 e0)) p fuel))
         (snd (shortest_from f (S754_finite s m0 e0) s (fst (dec_of_bin m0 e0))
               (snd (dec_of_bin m0 e0)) p fuel)) = S754_finite s m0 e0).
  { induction fuel as [|fuel IH]; intros p Hp Hpf; cbn [shortest_from].
    - destruct (round_digits_spec (fst (dec_of_bin m0 e0)) (snd (dec_of_bin m0 e0)) p HA Hp)
        as (r & k & Hk & Hr & Hu & Hk0 & HkA & Hd & HdE).
      split; [exact Hd|]. rewrite Nat.add_0_r in Hpf. subst p.
      apply (readback f s m0 e0 _ _ r k); auto.
    - destruct (round_digits_spec (fst (dec_of_bin m0 e0)) (snd (dec_of_bin m0 e0)) p HA Hp)
        as (r & k & Hk & Hr & Hu & Hk0 & HkA & Hd & HdE).
      destruct (spec_float_eqb _ _) eqn:E.
      + split; [exact Hd|]. apply spec_float_eqb_eq, E.
      + apply IH; lia. }
  apply Hgen; lia.
Qed.

End FloatRounding.

(** ** Signed integers and floating point *)

Lemma digit_not_sign (c : ascii) : is_digit c = true ->
  (c =? MINUS)%char = false /\ (c =? "+")%char = false /\ (c =? ".")%char = false
  /\ (c =? "n")%char = false.
Proof. all_bytes c; vm_compute; intuition congruence. Qed.

Lemma delim_not_number (r : text) : delim r = true ->
  is_digit (peek r) = false /\ (peek r =? ".")%char = false
  /\ (peek r =? "e")%char = false /\ (peek r =? "E")%char = false.
Proof. unfold delim. generalize (peek r). intros c. all_bytes c; vm_compute; intuition congruence. Qed.

Lemma rd_sign_digit (t : text) : is_digit (peek t) = true -> rd_sign t = (false, t).
Proof.
  intros H. unfold rd_sign. destruct (digit_not_sign _ H) as [-> _]. reflexivity.
Qed.

Lemma wr_zdec_peek (n : Z) (rest : text) : (0 <= n)%Z ->
  is_digit (peek (wr_zdec n ++ rest)) = true.
Proof. intros Hn. destruct (wr_zdec_head n Hn) as (c & r & -> & Hc). exact Hc. Qed.

(** The signed decimal [wrJson_int z] is read back by the sign and digit scan. *)
Lemma wrJson_int_read (z : Z) (rest : text) :
  is_digit (peek rest) = false ->
  (let '(neg, s1) := rd_sign (wrJson_int z ++ rest) in
   is_digit (peek s1) = true
   /\ let '(n, _, r) := rd_zdigits s1 0 0 in (if neg then (- n)%Z else n) = z /\ r = rest).
Proof.
  intros Hr. unfold wrJson_int. destruct (Z.ltb_spec z 0) as [Hz|Hz].
  - cbn [app]. unfold rd_sign. cbn [peek advance tl]. rewrite Ascii.eqb_refl.
    split; [apply wr_zdec_peek; lia|].
    rewrite wr_zdec_read by (auto; lia). split; [lia|reflexivity].
  - rewrite rd_sign_digit by (apply wr_zdec_peek; lia).
    split; [apply wr_zdec_peek; lia|].
    rewrite wr_zdec_read by (auto; lia). split; reflexivity.
Qed.

Lemma wrJson_int_head (z : Z) (rest : text) :
  exists c r, wrJson_int z ++ rest = c :: r
  /\ (c = MINUS \/ is_digit c = true).
Proof.
  unfold wrJson_int. destruct (Z.ltb_spec z 0).
  - do 2 eexists. split; [reflexivity|]. left; reflexivity.
  - destruct (wr_zdec_head z ltac:(lia)) as (c & r & -> & Hc).
    do 2 eexists. split; [reflexivity|]. right; exact Hc.
Qed.

Lemma int_codec_ok : codec_ok (fun _ => True) wrJson_int rdJson_int.
Proof.
  intros z _. split.
  - destruct (wrJson_int_head z []) as (c & r & E & [-> | Hc]);
      rewrite app_nil_r in E; rewrite E; [reflexivity|].
    destruct (digit_not_special c Hc) as (H1 & H2 & H3). cbn. now rewrite H1, H2, H3.
  - intros w rest Hr. destruct (delim_not_number rest Hr) as (Hd & _).
    unfold rdJson_int.
    destruct (wrJson_int_head z rest) as (c & r & E & Hc).
    assert (Hs : is_space c = false)
      by (destruct Hc as [->|Hc]; [reflexivity|apply digit_not_special, Hc]).
    rewrite E, skip_nonspace by exact Hs. rewrite <- E.
    pose proof (wrJson_int_read z rest Hd) as H.
    destruct (rd_sign (wrJson_int z ++ rest)) as [neg s1].
    destruct H as [H1 H2]. rewrite H1.
    destruct (rd_zdigits s1 0 0) as [[n cnt] r']. destruct H2 as [<- ->]. reflexivity.
Qed.

Lemma int_size_ok : size_ok wrJsonSize_int wrJson_int.
Proof. intros z. unfold wrJsonSize_int. split; [intros; lia|lia]. Qed.

(** The number lexer on a written number. *)
Lemma rd_number_written (s : bool) (d E : Z) (rest : text) :
  (0 <= d)%Z -> delim rest = true ->
  rd_number (sign_text s ++ wr_zdec d ++ wr_exp E ++ rest) = Some (s, d, E, rest).
Proof.
  intros Hd Hr. destruct (delim_not_number rest Hr) as (Hr1 & Hr2 & Hr3 & Hr4).
  assert (Hexp : is_digit (peek (wr_exp E ++ rest)) = false
                 /\ (peek (wr_exp E ++ rest) =? ".")%char = false).
  { unfold wr_exp. destruct (E =? 0)%Z; cbn [app peek]; [auto|split; reflexivity]. }
  destruct Hexp as [He1 He2].
  unfold rd_number.
  assert (Hsign : rd_sign (sign_text s ++ wr_zdec d ++ wr_exp E ++ rest)
                  = (s, wr_zdec d ++ wr_exp E ++ rest)).
  { destruct s; cbn [sign_text app].
    - unfold rd_sign. cbn [peek advance tl]. rewrite Ascii.eqb_refl. reflexivity.
    - apply rd_sign_digit, wr_zdec_peek, Hd. }
  rewrite Hsign. rewrite wr_zdec_peek by exact Hd. cbn [negb].
  rewrite wr_zdec_read by assumption. rewrite He2. cbn [andb].
  unfold wr_exp. destruct (Z.eqb_spec E 0) as [->|HE].
  - cbn [app]. rewrite Hr3, Hr4. cbn [orb]. reflexivity.
  - cbn [app peek advance tl]. change ((("e" =? "e")%char || _)%bool) with true.
    cbv iota beta.
    destruct (wrJson_int_head E rest) as (c & r & Ec & Hc).
    assert (Hplus : (c =? "+")%char = false)
      by (destruct Hc as [->|Hc]; [reflexivity|apply digit_not_sign, Hc]).
    rewrite Ec. cbn [peek]. rewrite Hplus. rewrite <- Ec.
    pose proof (wrJson_int_read E rest Hr1) as H.
    destruct (rd_sign (wrJson_int E ++ rest)) as [neg s1].
    destruct H as [H1 H2]. rewrite H1.
    destruct (rd_zdigits s1 0 0) as [[n cnt] r']. destruct H2 as [-> ->].
    rewrite Z.sub_0_r. reflexivity.
Qed.

Lemma float_text (f : float_format) (x : spec_float) :
  valid_binary (fmt_prec f) (fmt_emax f) x = true -> x <> S754_nan ->
  exists s d E, (0 <= d)%Z /\ wrJson_float f x = sign_text s ++ wr_zdec d ++ wr_exp E
  /\ round_dec f s d E = x.
Proof.
  intros Hv Hn. destruct x as [s|s| |s m e].
  - exists s, 0%Z, 0%Z. split; [lia|]. split; reflexivity.
  - exists s, 1%Z, 999%Z. split; [lia|]. split; [reflexivity|].
    destruct f, s; vm_compute; reflexivity.
  - congruence.
  - cbn in Hv. destruct (shortest_spec f s m e Hv) as [Hd Hr].
    exists s, (fst (shortest f s m e)), (snd (shortest f s m e)).
    split; [lia|]. split; [|exact Hr].
    cbn [wrJson_float]. rewrite (surjective_pairing (shortest f s m e)). reflexivity.
Qed.

Lemma number_head (s : bool) (d : Z) (rest : text) : (0 <= d)%Z ->
  exists c r, sign_text s ++ wr_zdec d ++ rest = c :: r
  /\ is_space c = false /\ (c =? RBRACK)%char = false /\ (c =? RBRACE)%char = false
  /\ (c =? "n")%char = false.
Proof.
  intros Hd. destruct s; cbn [sign_text app].
  - do 2 eexists. split; [reflexivity|]. repeat split.
  - destruct (wr_zdec_head d Hd) as (c & r & -> & Hc).
    do 2 eexists. split; [reflexivity|].
    destruct (digit_not_special c Hc) as (H1 & H2 & H3).
    destruct (digit_not_sign c Hc) as (_ & _ & _ & H4). auto.
Qed.

Lemma float_codec_ok (f : float_format) :
  codec_ok (fun x => valid_binary (fmt_prec f) (fmt_emax f) x = true)
    (wrJson_float f) (rdJson_float f).
Proof.
  intros x Hv. destruct (spec_float_eqb x S754_nan) eqn:En.
  { apply spec_float_eqb_eq in En. subst x. split; [reflexivity|].
    intros w rest _. reflexivity. }
  assert (Hn : x <> S754_nan) by (intros ->; discriminate).
  destruct (float_text f x Hv Hn) as (s & d & E & Hd & Ht & Hr).
  rewrite Ht. split.
  - destruct (number_head s d (wr_exp E) Hd) as (c & r & Ec & H1 & H2 & H3 & _).
    rewrite app_assoc in *. rewrite Ec. cbn. now rewrite H1, H2, H3.
  - intros w rest Hdl. unfold rdJson_float.
    destruct (number_head s d (wr_exp E ++ rest) Hd) as (c & r & Ec & H1 & _ & _ & H4).
    rewrite <- !app_assoc, Ec, skip_nonspace by exact H1.
    unfold t_null. cbn [list_ascii_of_string jsonMatch]. rewrite H4. rewrite <- Ec.
    rewrite rd_number_written by assumption. rewrite Hr. reflexivity.
Qed.

Lemma float_size_ok (f : float_format) : size_ok (wrJsonSize_float f) (wrJson_float f).
Proof. intros x. unfold wrJsonSize_float. split; [intros; lia|lia]. Qed.

Lemma string_body_read (v rest acc : text) :
  rd_string_body (flat_map escape_char v ++ QUOTE :: rest) acc = Some (rev acc ++ v, rest).
Proof.
  revert acc. induction v as [|c v IH]; intros acc.
  - simpl. rewrite app_nil_r. reflexivity.
  - simpl. rewrite <- app_assoc, escape_char_read, IH. simpl.
    rewrite <- app_assoc. reflexivity.
Qed.

Lemma string_codec_ok : codec_ok (fun _ => True) wrJson_string rdJson_string.
Proof.
  intros v _. split; [reflexivity|].
  intros w rest _. unfold rdJson_string, wrJson_string.
  simpl. rewrite <- app_assoc. simpl. rewrite string_body_read. reflexivity.
Qed.

(** ** [vector<T>] round trip *)

Section VecRoundTrip.
Context {T : Type} (P : T -> Prop) (defT : T) (wrT : T -> text) (rdT : reader T).
Hypothesis HT : codec_ok P wrT rdT.

Lemma elems_true_length (l : list T) :
  List.length l <= List.length (wrJson_elems wrT true l).
Proof.
  induction l as [|x r IH]; simpl; [lia|].
  rewrite length_app. simpl in IH |- *. lia.
Qed.

Lemma elems_length (l : list T) (sep : bool) :
  List.length l <= S (List.length (wrJson_elems wrT sep l)).
Proof.
  destruct l as [|x r]; simpl; [lia|].
  rewrite !length_app. pose proof (elems_true_length r). lia.
Qed.

Lemma vec_loop_read (l : list T) :
  forall fuel acc rest, Forall P l -> List.length l < fuel ->
  rdJson_vec_loop defT rdT fuel (wrJson_elems wrT false l ++ RBRACK :: rest) acc
  = (true, rest, acc ++ l).
Proof.
  induction l as [|x r IH]; intros fuel acc rest HP Hf;
    (destruct fuel as [|f]; [simpl in Hf; lia|]).
  - simpl. now rewrite app_nil_r.
  - apply Forall_cons_iff in HP as [Px Pr].
    destruct (HT x Px) as [Hh Hrd].
    change (wrJson_elems wrT false (x :: r)) with (wrT x ++ wrJson_elems wrT true r).
    rewrite <- app_assoc. cbn [rdJson_vec_loop].
    rewrite head_ok_skip by exact Hh.
    destruct (head_ok_peek _ (wrJson_elems wrT true r ++ RBRACK :: rest) Hh) as [Hp _].
    rewrite Hp.
    destruct r as [|y r'].
    + rewrite Hrd by reflexivity. reflexivity.
    + rewrite Hrd by reflexivity. cbn -[wrJson_elems].
      change (wrJson_elems wrT true (y :: r')) with
        (COMMA :: wrJson_elems wrT false (y :: r')).
      cbn [app jsonSkipSpace peek advance]. autorewrite with chars. cbv iota beta.
      cbn [advance tl].
      rewrite IH by (auto; simpl in Hf |- *; lia).
      now rewrite <- app_assoc.
Qed.

Lemma vec_codec_ok : codec_ok (Forall P) (wrJson_vec wrT) (rdJson_vec defT rdT).
Proof.
  intros l Hl. split; [reflexivity|].
  intros w rest _. unfold rdJson_vec, wrJson_vec.
  rewrite <- !app_assoc. cbn [app jsonSkipSpace peek advance]. autorewrite with chars.
  cbv iota beta. simpl negb. cbv iota.
  apply vec_loop_read; auto.
  cbn [advance tl]. rewrite length_app. pose proof (elems_length l false). simpl. lia.
Qed.

End VecRoundTrip.

(** ** [map<KT, VT>] round trip *)

Section MapRoundTrip.
Context {K V : Type} (PK : K -> Prop) (PV : V -> Prop) (defK : K) (defV : V)
  (wrK : K -> text) (wrV : V -> text) (rdK : reader K) (rdV : reader V)
  (cmp : K -> K -> comparison).
Hypothesis HK : codec_ok PK wrK rdK.
Hypothesis HV : codec_ok PV wrV rdV.

Lemma entries_true_length (m : list (K * V)) :
  List.length m <= List.length (wrJson_entries wrK wrV true m).
Proof.
  induction m as [|[k v] r IH]; simpl; [lia|].
  rewrite !length_app. simpl. rewrite length_app. lia.
Qed.

Lemma entries_length (m : list (K * V)) :
  List.length m <= S (List.length (wrJson_entries wrK wrV false m)).
Proof.
  destruct m as [|[k v] r]; simpl; [lia|].
  rewrite !length_app. simpl. rewrite length_app.
  pose proof (entries_true_length r). lia.
Qed.

Lemma map_loop_read (l : list (K * V)) :
  forall fuel acc rest, Forall (fun kv => PK (fst kv) /\ PV (snd kv)) l ->
  List.length l < fuel ->
  rdJson_map_loop defK defV rdK rdV cmp fuel
    (wrJson_entries wrK wrV false l ++ RBRACE :: rest) acc
  = (true, rest, fold_left (map_ins cmp) l acc).
Proof.
  induction l as [|[k v] r IH]; intros fuel acc rest HP Hf;
    (destruct fuel as [|f]; [simpl in Hf; lia|]).
  - reflexivity.
  - apply Forall_cons_iff in HP as [[Pk Pv] Pr].
    destruct (HK k Pk) as [Hhk Hrk]. destruct (HV v Pv) as [Hhv Hrv].
    change (wrJson_entries wrK wrV false ((k, v) :: r))
      with (wrK k ++ [COLON] ++ wrV v ++ wrJson_entries wrK wrV true r).
    rewrite <- !app_assoc. cbn [rdJson_map_loop].
    rewrite head_ok_skip by exact Hhk.
    destruct (head_ok_peek _ ([COLON] ++ wrV v ++ wrJson_entries wrK wrV true r
                                ++ RBRACE :: rest) Hhk) as [_ Hp].
    rewrite Hp. rewrite Hrk by reflexivity.
    cbn [negb app jsonSkipSpace peek advance tl]. autorewrite with chars.
    cbn [negb advance tl]. rewrite head_ok_skip by exact Hhv.
    destruct r as [|[k2 v2] r'].
    + rewrite Hrv by reflexivity. cbn. autorewrite with chars. reflexivity.
    + rewrite Hrv by reflexivity. cbn [negb].
      change (wrJson_entries wrK wrV true ((k2, v2) :: r')) with
        (COMMA :: wrJson_entries wrK wrV false ((k2, v2) :: r')).
      cbn [app jsonSkipSpace peek advance tl]. autorewrite with chars. cbv iota beta.
      cbn [advance tl].
      rewrite IH by (auto; simpl in Hf |- *; lia).
      reflexivity.
Qed.

Hypothesis cmp_antisym : forall a b, cmp b a = CompOpp (cmp a b).

Lemma insert_last (k : K) (v : V) (acc : list (K * V)) :
  Forall (fun kv => (entry_lt cmp) kv (k, v)) acc ->
  map_insert cmp k v acc = acc ++ [(k, v)].
Proof.
  induction acc as [|[k' v'] r IH]; intros H; [reflexivity|].
  apply Forall_cons_iff in H as [H1 H2]. unfold entry_lt in H1. simpl in H1.
  simpl. rewrite cmp_antisym, H1. simpl. now rewrite IH.
Qed.

Lemma sorted_app_lt (a b : list (K * V)) :
  StronglySorted (entry_lt cmp) (a ++ b) ->
  Forall (fun x => Forall (fun y => (entry_lt cmp) x y) b) a.
Proof.
  induction a as [|x a IH]; intros H; [constructor|].
  simpl in H. apply StronglySorted_inv in H as [H1 H2].
  constructor; [|now apply IH].
  apply Forall_app in H2 as [_ H2]. exact H2.
Qed.

Lemma fold_insert_sorted (l acc : list (K * V)) :
  StronglySorted (entry_lt cmp) (acc ++ l) -> fold_left (map_ins cmp) l acc = acc ++ l.
Proof.
  revert acc. induction l as [|[k v] r IH]; intros acc H; simpl; [now rewrite app_nil_r|].
  assert (Hlt : Forall (fun kv => (entry_lt cmp) kv (k, v)) acc).
  { pose proof (sorted_app_lt acc _ H) as Hs.
    eapply Forall_impl; [|exact Hs]. intros x Hx. now inversion Hx. }
  unfold map_ins at 2. simpl. rewrite insert_last by exact Hlt.
  rewrite IH; [now rewrite <- app_assoc|]. now rewrite <- app_assoc.
Qed.

Lemma map_read (l : list (K * V)) (rest : text) (w : list (K * V)) :
  Forall (fun kv => PK (fst kv) /\ PV (snd kv)) l ->
  rdJson_map defK defV rdK rdV cmp (wrJson_map wrK wrV l ++ rest) w
  = (true, rest, fold_left (map_ins cmp) l []).
Proof.
  intros Hl. unfold rdJson_map, wrJson_map.
  rewrite <- !app_assoc. cbn [app jsonSkipSpace peek advance tl]. autorewrite with chars.
  cbv iota beta. simpl negb. cbv iota. cbn [advance tl].
  apply map_loop_read; auto.
  rewrite length_app. pose proof (entries_length l). simpl. lia.
Qed.

Lemma map_codec_ok :
  codec_ok (fun m => StronglySorted (entry_lt cmp) m
                     /\ Forall (fun kv => PK (fst kv) /\ PV (snd kv)) m)
    (wrJson_map wrK wrV) (rdJson_map defK defV rdK rdV cmp).
Proof.
  intros m [Hs Hm]. split; [reflexivity|].
  intros w rest _. rewrite map_read by exact Hm.
  now rewrite fold_insert_sorted.
Qed.

Hypothesis cmp_eq : forall a b, cmp a b = Eq -> a = b.

Lemma lookup_insert (k k' : K) (v : V) (m : list (K * V)) :
  map_lookup cmp k (map_insert cmp k' v m)
  = match cmp k k' with Eq => Some v | _ => map_lookup cmp k m end.
Proof.
  induction m as [|[k1 v1] r IH]; simpl.
  - destruct (cmp k k'); reflexivity.
  - destruct (cmp k' k1) eqn:E1; simpl.
    + apply cmp_eq in E1. subst k1. destruct (cmp k k'); reflexivity.
    + reflexivity.
    + rewrite IH. destruct (cmp k k1) eqn:E2; try reflexivity.
      apply cmp_eq in E2. subst k1.
      rewrite cmp_antisym, E1. reflexivity.
Qed.

Lemma lookup_fold (k : K) (l acc : list (K * V)) :
  map_lookup cmp k (fold_left (map_ins cmp) l acc)
  = fold_left ((last_step cmp) k) l (map_lookup cmp k acc).
Proof.
  revert acc. induction l as [|[k' v] r IH]; intros acc; simpl; [reflexivity|].
  rewrite IH. unfold map_ins. simpl. rewrite lookup_insert. reflexivity.
Qed.

Lemma last_binding_fold (k : K) (l : list (K * V)) :
  fold_left ((last_step cmp) k) l None = last_binding cmp k l.
Proof.
  induction l as [|x l IH] using rev_ind; [reflexivity|].
  rewrite fold_left_app, IH. unfold last_binding, last_step.
  rewrite rev_app_distr. simpl. destruct (cmp k (fst x)); reflexivity.
Qed.

End MapRoundTrip.

(** ** [std::string] ordering *)

Lemma text_compare_antisym (a b : text) : text_compare b a = CompOpp (text_compare a b).
Proof.
  revert b. induction a as [|x a IH]; intros [|y b]; simpl; auto.
  rewrite (Ascii.compare_antisym y x).
  destruct (Ascii.compare x y); simpl; auto.
Qed.

Lemma text_compare_eq (a b : text) : text_compare a b = Eq -> a = b.
Proof.
  revert b. induction a as [|x a IH]; intros [|y b]; simpl; try discriminate; auto.
  destruct (Ascii.compare x y) eqn:E; try discriminate.
  apply Ascii.compare_eq_iff in E. intros H. subst. f_equal. auto.
Qed.

Lemma text_compare_refl (a : text) : text_compare a a = Eq.
Proof.
  induction a as [|x a IH]; simpl; auto.
  pose proof (Ascii.compare_antisym x x) as H.
  destruct (Ascii.compare x x); simpl in H; congruence.
Qed.

(** ** Every readable shape round-trips *)

Lemma codec_ok_weaken {T} (P Q : T -> Prop) wr rd :
  codec_ok P wr rd -> (forall v, Q v -> P v) -> codec_ok Q wr rd.
Proof. intros H HQ v Hv. apply H, HQ, Hv. Qed.

Lemma codec_of_ok (t : shape) :
  forall rd, rdJson_of t = Some rd -> codec_ok (wf t) (wrJson_of t) rd.
Proof.
  induction t as [| |w|f| |t IH|t IH|t IH]; intros rd Hrd; simpl in Hrd.
  - injection Hrd as <-. exact bool_codec_ok.
  - injection Hrd as <-. exact nat_codec_ok.
  - injection Hrd as <-. eapply codec_ok_weaken; [exact int_codec_ok|]. simpl. auto.
  - injection Hrd as <-. exact (float_codec_ok f).
  - injection Hrd as <-. exact string_codec_ok.
  - destruct (rdJson_of t) as [rdt|] eqn:E; [|discriminate].
    injection Hrd as <-. simpl.
    apply vec_codec_ok, IH. reflexivity.
  - destruct (rdJson_of t) as [rdt|] eqn:E; [|discriminate].
    injection Hrd as <-. simpl.
    eapply codec_ok_weaken.
    + apply (map_codec_ok (fun _ => True) (wf t)).
      * exact string_codec_ok.
      * apply IH. reflexivity.
      * exact text_compare_antisym.
    + intros m [Hs Hm]. split; [exact Hs|].
      eapply Forall_impl; [|exact Hm]. simpl. auto.
  - discriminate.
Qed.

(** ** The size pass bounds the write pass *)

Section SizeBound.
Context {K T : Type} (szK : nat -> K -> nat) (wrK : K -> text)
  (szT : nat -> T -> nat) (wrT : T -> text).
Hypothesis HK : size_ok szK wrK.
Hypothesis HT : size_ok szT wrT.

Lemma elems_size (l : list T) :
  forall n, wrJsonSize_elems szT n l = n + sum_sizes szT l.
Proof.
  induction l as [|x r IH]; intros n; simpl; [lia|].
  rewrite IH, (proj1 (HT x) n). lia.
Qed.

Lemma elems_len (l : list T) (sep : bool) :
  List.length (wrJson_elems wrT sep l) <= List.length l + sum_sizes szT l.
Proof.
  revert sep. induction l as [|x r IH]; intros sep; simpl; [lia|].
  rewrite !length_app. pose proof (proj2 (HT x)). specialize (IH true).
  destruct sep; simpl; lia.
Qed.

Lemma vec_size_ok : size_ok (wrJsonSize_vec szT) (wrJson_vec wrT).
Proof.
  intros l. unfold wrJsonSize_vec, wrJson_vec.
  split; [intros n; rewrite !elems_size; lia|]. rewrite elems_size.
  rewrite !length_app. pose proof (elems_len l false). simpl. lia.
Qed.

Lemma entries_size (m : list (K * T)) :
  forall n, wrJsonSize_entries szK szT n m = n + sum_entry_sizes szK szT m.
Proof.
  induction m as [|[k v] r IH]; intros n; simpl; [lia|].
  rewrite IH, (proj1 (HT v)), (proj1 (HK k) n). lia.
Qed.

Lemma entries_len (m : list (K * T)) (sep : bool) :
  List.length (wrJson_entries wrK wrT sep m) <= sum_entry_sizes szK szT m.
Proof.
  revert sep. induction m as [|[k v] r IH]; intros sep; simpl; [lia|].
  rewrite !length_app. simpl. rewrite length_app.
  pose proof (proj2 (HT v)). pose proof (proj2 (HK k)). specialize (IH true).
  destruct sep; simpl; lia.
Qed.

Lemma map_size_ok : size_ok (wrJsonSize_map szK szT) (wrJson_map wrK wrT).
Proof.
  intros m. unfold wrJsonSize_map, wrJson_map.
  split; [intros n; rewrite !entries_size; lia|]. rewrite entries_size.
  rewrite !length_app. pose proof (entries_len m false). simpl. lia.
Qed.

Lemma ptr_size_ok : size_ok (wrJsonSize_ptr szT) (wrJson_ptr wrT).
Proof.
  intros [x|]; simpl; [apply HT|]. split; [intros; lia|]. reflexivity.
Qed.

End SizeBound.

Lemma bool_size_ok : size_ok wrJsonSize_bool wrJson_bool.
Proof.
  intros b. split; [intros n; unfold wrJsonSize_bool; lia|].
  destruct b; vm_compute; lia.
Qed.

Lemma nat_size_ok : size_ok wrJsonSize_nat wrJson_nat.
Proof. intros x. unfold wrJsonSize_nat, wrJson_nat. split; [intros; lia|lia]. Qed.

Lemma flat_map_escape_length (v : text) :
  List.length (flat_map escape_char v)
  = fold_right (fun c n => List.length (escape_char c) + n) 0 v.
Proof. induction v as [|c v IH]; simpl; [reflexivity|]. now rewrite length_app, IH. Qed.

Lemma string_size_ok : size_ok wrJsonSize_string wrJson_string.
Proof.
  intros v. unfold wrJsonSize_string, wrJson_string. split; [intros; lia|].
  rewrite !length_app, flat_map_escape_length. simpl. lia.
Qed.

Lemma size_of_ok (t : shape) : size_ok (wrJsonSize_of t) (wrJson_of t).
Proof.
  induction t as [| |w|f| |t IH|t IH|t IH]; simpl.
  - exact bool_size_ok.
  - exact nat_size_ok.
  - exact int_size_ok.
  - exact (float_size_ok f).
  - exact string_size_ok.
  - apply vec_size_ok; exact IH.
  - apply (map_size_ok wrJsonSize_string wrJson_string); [exact string_size_ok|exact IH].
  - apply ptr_size_ok; exact IH.
Qed.

Lemma asJson_write (t : shape) (v : denote t) : asJson t v = Some (wrJson_of t v).
Proof.
  unfold asJson. destruct (size_of_ok t v) as [_ H].
  apply Nat.leb_le in H. now rewrite H.
Qed.

(* ================================================================= *)
(** * Proofs about the transport *)

(** ** Newline framing as a byte-at-a-time fold *)

Lemma memchr_nl_some (p pre post : text) :
  memchr_nl p = Some (pre, post) ->
  p = pre ++ LF :: post /\ Forall (fun c => (c =? LF)%char = false) pre.
Proof.
  revert pre. induction p as [|c r IH]; intros pre H; simpl in H; [discriminate|].
  destruct (c =? LF)%char eqn:E.
  - injection H as <- <-. apply Ascii.eqb_eq in E. subst. split; [reflexivity|constructor].
  - destruct (memchr_nl r) as [[a b]|] eqn:E2; [|discriminate].
    injection H as <- <-. destruct (IH a eq_refl) as [-> Ha].
    split; [reflexivity|constructor; auto].
Qed.

Lemma memchr_nl_none (p : text) :
  memchr_nl p = None -> Forall (fun c => (c =? LF)%char = false) p.
Proof.
  induction p as [|c r IH]; intros H; [constructor|]. simpl in H.
  destruct (c =? LF)%char eqn:E; [discriminate|].
  destruct (memchr_nl r) as [[a b]|]; [discriminate|]. constructor; auto.
Qed.

Lemma feed_no_nl (s cur : text) (q : list text) :
  Forall (fun c => (c =? LF)%char = false) s ->
  fold_left rx_feed s (cur, q) = (cur ++ s, q).
Proof.
  revert cur. induction s as [|c s IH]; intros cur H; simpl; [now rewrite app_nil_r|].
  inversion H as [|? ? Hc Hs]; subst. rewrite Hc, IH by exact Hs.
  now rewrite <- app_assoc.
Qed.

Lemma rx_scan_spec (fuel : nat) :
  forall p cur q act, List.length p < fuel ->
  let '(cur', q', _) := rx_scan fuel p cur q act in
  (cur', q') = fold_left rx_feed p (cur, q).
Proof.
  induction fuel as [|f IH]; intros p cur q act Hf; [simpl in Hf; lia|].
  destruct p as [|c r]; [reflexivity|].
  cbn [rx_scan]. destruct (memchr_nl (c :: r)) as [[pre post]|] eqn:E.
  - destruct (memchr_nl_some _ _ _ E) as [Hp Hpre].
    rewrite Hp, fold_left_app, feed_no_nl by exact Hpre. cbn [fold_left rx_feed].
    rewrite eqb_self.
    assert (Hl : List.length post < f).
    { apply (f_equal (@List.length ascii)) in Hp. rewrite length_app in Hp.
      simpl in Hp, Hf. lia. }
    destruct (List.length cur =? 0) eqn:Ec; simpl negb; cbv iota.
    + apply Nat.eqb_eq, length_zero_iff_nil in Ec. subst cur.
      apply (IH post [] (q ++ [pre]) true Hl).
    + apply (IH post [] (q ++ [cur ++ pre]) true Hl).
  - rewrite feed_no_nl by (now apply memchr_nl_none). reflexivity.
Qed.

Lemma with_rx_twice (st : jsonpipe) (a b : text * list text) :
  with_rx (with_rx st a) b = with_rx st b.
Proof. destruct st; reflexivity. Qed.

Lemma rxCur_with_rx (st : jsonpipe) (cq : text * list text) : rxCur (with_rx st cq) = fst cq.
Proof. reflexivity. Qed.

Lemma rxQ_with_rx (st : jsonpipe) (cq : text * list text) : rxQ (with_rx st cq) = snd cq.
Proof. reflexivity. Qed.

Lemma rx_loop_data (cs : list text) :
  forall st act,
  fst (fst (rx_loop (map RdData cs) st act))
  = with_rx st (fold_left rx_feed (List.concat cs) (rxCur st, rxQ st)).
Proof.
  induction cs as [|c cs IH]; intros st act.
  - destruct st; reflexivity.
  - cbn [map rx_loop List.concat].
    pose proof (rx_scan_spec (S (List.length c)) c (rxCur st) (rxQ st) act ltac:(lia)) as Hs.
    destruct (rx_scan (S (List.length c)) c (rxCur st) (rxQ st) act) as [[cur q] act'].
    rewrite fold_left_app, <- Hs.
    change (set_rxQ (set_rxCur st cur) q) with (with_rx st (cur, q)).
    rewrite IH, with_rx_twice. reflexivity.
Qed.

Lemma rxWork_fst (reads : list read_result) (st : jsonpipe) :
  fst (rxWork reads st) = fst (fst (rx_loop reads st false)).
Proof. unfold rxWork. destruct (rx_loop reads st false) as [[a b] c]. reflexivity. Qed.

Lemma rxWork_chunks_fold (chunks : list text) :
  forall st,
  fold_left (fun s c => fst (rxWork [RdData c] s)) chunks st
  = with_rx st (fold_left rx_feed (List.concat chunks) (rxCur st, rxQ st)).
Proof.
  induction chunks as [|c cs IH]; intros st; [destruct st; reflexivity|].
  cbn [fold_left List.concat]. rewrite IH, rxWork_fst.
  change [RdData c] with (map RdData [c]). rewrite rx_loop_data.
  cbn [List.concat]. rewrite app_nil_r, fold_left_app, with_rx_twice.
  rewrite rxCur_with_rx, rxQ_with_rx, <- surjective_pairing. reflexivity.
Qed.

(** ** The transmit loop *)

Ltac destruct_tx :=
  match goal with |- context [tx_loop ?a ?b] => destruct (tx_loop a b) end.

Lemma tx_first_send (rs : list send_result) (st : jsonpipe) :
  txCur st <> [] ->
  exists ev, snd (tx_loop rs st) = EvSend (txFd st) (txCur st) :: ev.
Proof.
  intros H. destruct (txCur st) as [|c cur] eqn:E; [congruence|].
  assert (Hm : tx_materialize st = st) by (unfold tx_materialize; now rewrite E).
  destruct rs as [|r rs]; cbn [tx_loop]; rewrite Hm, E; cbn -[tx_loop closeTx].
  - eexists; reflexivity.
  - destruct r as [n| |].
    + destruct (n <=? List.length cur).
      * destruct_tx. eexists; reflexivity.
      * destruct (n =? S (List.length cur)); [destruct_tx|]; eexists; reflexivity.
    + eexists; reflexivity.
    + destruct (closeTx st). eexists; reflexivity.
Qed.

(** Data read before the end of input only moves the partial line and the
    queue of received records. *)
Lemma rx_loop_data_then (chunks : list text) (rest : list read_result) :
  forall st act, exists cur q act',
    rx_loop (map RdData chunks ++ rest) st act = rx_loop rest (set_rxQ (set_rxCur st cur) q) act'
    /\ (chunks = [] -> cur = rxCur st /\ q = rxQ st /\ act' = act).
Proof.
  induction chunks as [|c cs IH]; intros st act.
  - exists (rxCur st), (rxQ st), act. split; [|auto]. destruct st; reflexivity.
  - cbn [map app rx_loop].
    destruct (rx_scan (S (List.length c)) c (rxCur st) (rxQ st) act) as [[cur q] act'].
    destruct (IH (set_rxQ (set_rxCur st cur) q) act') as (cur' & q' & act'' & H & _).
    exists cur', q', act''. split; [|discriminate].
    rewrite H. destruct st; reflexivity.
Qed.

(* ================================================================= *)
(** * The claims *)

(** C1: for every readable shape and every value of it, decoding the
    encoding produced by [asJson] with [fromJson] succeeds and yields the
    value back, whatever the destination held before. *)
Theorem roundtrip_fromJson_asJson (t : shape) (rd : reader (denote t)) (v w : denote t) :
  rdJson_of t = Some rd -> wf t v ->
  option_map (fun enc => fromJson rd enc w) (asJson t v) = Some (true, v).
Proof.
  intros Hrd Hv. rewrite asJson_write. cbn [option_map]. unfold fromJson.
  destruct (codec_of_ok t rd Hrd v Hv) as [_ H].
  specialize (H w [] eq_refl). rewrite app_nil_r in H. now rewrite H.
Qed.

Lemma roundtrip_fromJson_asJson_witness :
  exists rd,
    rdJson_of (SMap (SVec (SFlt Binary64))) = Some rd
    /\ wf (SMap (SVec (SFlt Binary64)))
         [(list_ascii_of_string "a", [S754_finite false 7205759403792794 (-56); S754_infinity true]);
          (list_ascii_of_string "b", [S754_nan; S754_zero true])]
    /\ option_map (fun enc => fromJson rd enc [])
         (asJson (SMap (SVec (SFlt Binary64)))
            [(list_ascii_of_string "a", [S754_finite false 7205759403792794 (-56); S754_infinity true]);
             (list_ascii_of_string "b", [S754_nan; S754_zero true])])
       = Some (true,
           [(list_ascii_of_string "a", [S754_finite false 7205759403792794 (-56); S754_infinity true]);
            (list_ascii_of_string "b", [S754_nan; S754_zero true])]).
Proof.
  eexists. split; [reflexivity|].
  assert (Hw : wf (SMap (SVec (SFlt Binary64)))
         [(list_ascii_of_string "a", [S754_finite false 7205759403792794 (-56); S754_infinity true]);
          (list_ascii_of_string "b", [S754_nan; S754_zero true])]).
  { split; repeat first [reflexivity | constructor]. }
  split; [exact Hw|].
  exact (roundtrip_fromJson_asJson (SMap (SVec (SFlt Binary64))) _ _ [] eq_refl Hw).
Defined.

(** C5: the size pass bounds the write pass: [wrJson] emits at most
    [wrJsonSize] bytes, so [asJson] never writes past its buffer. *)
Theorem wrJson_within_wrJsonSize (t : shape) (v : denote t) :
  List.length (wrJson_of t v) <= wrJsonSize_of t 0 v /\ asJson t v = Some (wrJson_of t v).
Proof. split; [apply (size_of_ok t v)|apply asJson_write]. Qed.

(** C7: reading an object whose keys repeat into a [map] succeeds, and
    each key ends up bound to the value of its last occurrence. *)
Theorem rdJson_map_last_wins (t : shape) (rdm : reader (denote (SMap t)))
    (kvs : list (text * denote t)) (w : denote (SMap t)) :
  rdJson_of (SMap t) = Some rdm -> Forall (fun kv => wf t (snd kv)) kvs ->
  let '(ok, _, m) := rdm (wrJson_of (SMap t) kvs) w in
  ok = true /\ forall k, map_lookup text_compare k m = last_binding text_compare k kvs.
Proof.
  intros Hrd Hkvs. simpl in Hrd.
  destruct (rdJson_of t) as [rd|] eqn:E; [|discriminate].
  injection Hrd as <-. cbn [wrJson_of].
  rewrite <- (app_nil_r (wrJson_map wrJson_string (wrJson_of t) kvs)).
  rewrite (map_read (fun _ => True) (wf t) [] (default_of t) wrJson_string (wrJson_of t)
             rdJson_string rd text_compare string_codec_ok (codec_of_ok t rd E)).
  2: { eapply Forall_impl; [|exact Hkvs]. simpl. auto. }
  split; [reflexivity|]. intros k.
  rewrite (lookup_fold text_compare text_compare_antisym text_compare_eq). simpl.
  apply last_binding_fold.
Qed.

Lemma rdJson_map_last_wins_witness :
  exists rdm,
    rdJson_of (SMap SNat) = Some rdm
    /\ Forall (fun kv => wf SNat (snd kv))
         [(list_ascii_of_string "a", 1); (list_ascii_of_string "b", 2);
          (list_ascii_of_string "a", 3)]
    /\ (let '(ok, _, m) :=
          rdm (wrJson_of (SMap SNat)
                 [(list_ascii_of_string "a", 1); (list_ascii_of_string "b", 2);
                  (list_ascii_of_string "a", 3)]) [] in
        ok = true /\ forall k, map_lookup text_compare k m
                            = last_binding text_compare k
                                [(list_ascii_of_string "a", 1); (list_ascii_of_string "b", 2);
                                 (list_ascii_of_string "a", 3)]).
Proof.
  eexists. split; [reflexivity|].
  assert (Hf : Forall (fun kv => wf SNat (snd kv))
                 [(list_ascii_of_string "a", 1); (list_ascii_of_string "b", 2);
                  (list_ascii_of_string "a", 3)]) by (repeat constructor).
  split; [exact Hf|].
  exact (rdJson_map_last_wins SNat _ _ [] eq_refl Hf).
Defined.

(** C9: a successful [rdJson] into a [vector] or a [map] gives the same
    result whatever the destination held before: it is cleared first. *)
Theorem rdJson_clears_destination :
  (forall (T : Type) (defT : T) (rdT : reader T) (s : text) (arr arr' : list T),
      fst (fst (rdJson_vec defT rdT s arr)) = true ->
      rdJson_vec defT rdT s arr = rdJson_vec defT rdT s arr')
  /\ (forall (K V : Type) (defK : K) (defV : V) (rdK : reader K) (rdV : reader V)
        (cmp : K -> K -> comparison) (s : text) (m m' : list (K * V)),
      fst (fst (rdJson_map defK defV rdK rdV cmp s m)) = true ->
      rdJson_map defK defV rdK rdV cmp s m = rdJson_map defK defV rdK rdV cmp s m').
Proof.
  split.
  - intros T defT rdT s arr arr' H. unfold rdJson_vec in *.
    destruct (negb (peek (jsonSkipSpace s) =? LBRACK)%char); [discriminate|reflexivity].
  - intros K V defK defV rdK rdV cmp s m m' H. unfold rdJson_map in *.
    destruct (negb (peek (jsonSkipSpace s) =? LBRACE)%char); [discriminate|reflexivity].
Qed.

Lemma rdJson_clears_destination_witness :
  fst (fst (rdJson_vec 0 rdJson_nat (list_ascii_of_string "[1,2]") [7; 8; 9])) = true
  /\ rdJson_vec 0 rdJson_nat (list_ascii_of_string "[1,2]") [7; 8; 9]
     = rdJson_vec 0 rdJson_nat (list_ascii_of_string "[1,2]") [].
Proof.
  split; [reflexivity|].
  apply (proj1 rdJson_clears_destination). reflexivity.
Defined.

(** C4: feeding a byte stream to [rxWork] in chunks, whether as successive
    reads of one pass or one pass per chunk, leaves the same receive queue
    and partial record as feeding the whole stream as one read. *)
Theorem rx_framing_chunk_invariant (st : jsonpipe) (chunks : list text) :
  fst (rxWork (map RdData chunks) st) = fst (rxWork [RdData (List.concat chunks)] st)
  /\ fold_left (fun s c => fst (rxWork [RdData c] s)) chunks st
     = fst (rxWork [RdData (List.concat chunks)] st).
Proof.
  assert (Hone : fst (rxWork [RdData (List.concat chunks)] st)
                 = with_rx st (fold_left rx_feed (List.concat chunks) (rxCur st, rxQ st))).
  { rewrite rxWork_fst. change [RdData (List.concat chunks)]
      with (map RdData [List.concat chunks]).
    rewrite rx_loop_data. cbn [List.concat]. now rewrite app_nil_r. }
  rewrite Hone. split.
  - rewrite rxWork_fst. apply rx_loop_data.
  - apply rxWork_chunks_fold.
Qed.

(** C6: at end of stream with a non-empty partial record and an open
    receive fd, [rxWork] reports the partial record's length, drops it
    without enqueueing it, and closes the receive direction (shutdown when
    the fd is shared with the transmit side, close otherwise). *)
Theorem rx_eof_discards_partial (st : jsonpipe) (rest : list read_result) :
  rxCur st <> [] -> (rxFd st <> -1)%Z ->
  let '(st', ev) := rxWork (RdEof :: rest) st in
  rxQ st' = rxQ st /\ rxCur st' = [] /\ rxFd st' = (-1)%Z
  /\ ev = [EvNoNewlineAtEof (List.length (rxCur st));
           if (rxFd st =? txFd st)%Z then EvShutdown (rxFd st) SHUT_RD
           else EvClose (rxFd st)].
Proof.
  destruct st as [tf rf e tq rq tc rc]; cbn [rxCur rxFd txFd rxQ]. intros Hc Hf.
  unfold rxWork. cbn [rx_loop]. unfold closeRx. cbn.
  destruct rc as [|c rc]; [congruence|].
  apply Z.eqb_neq in Hf. rewrite Hf. cbn. auto.
Qed.

Lemma rx_eof_discards_partial_witness :
  let st := mkPipe 4 5 false [] [list_ascii_of_string "a"]
                   [] (list_ascii_of_string "{x:1") in
  (rxCur st <> [] /\ (rxFd st <> -1)%Z)
  /\ (let '(st', ev) := rxWork [RdEof] st in
      rxQ st' = rxQ st /\ rxCur st' = [] /\ rxFd st' = (-1)%Z
      /\ ev = [EvNoNewlineAtEof (List.length (rxCur st));
               if (rxFd st =? txFd st)%Z then EvShutdown (rxFd st) SHUT_RD
               else EvClose (rxFd st)]).
Proof.
  intros st.
  assert (H1 : rxCur st <> []) by discriminate.
  assert (H2 : (rxFd st <> -1)%Z) by (simpl; lia).
  split; [split; assumption|].
  exact (rx_eof_discards_partial st [] H1 H2).
Defined.

(** C10: a newline with no partial record before it is enqueued by
    [rxWork] as an empty record; on an otherwise empty queue [rxNonblock]
    then returns the empty string, exactly what it returns when the queue
    is empty. *)
Theorem blank_line_empty_record (st : jsonpipe) :
  rxCur st = [] ->
  rxQ (fst (rxWork [RdData [LF]] st)) = rxQ st ++ [[]]
  /\ (rxQ st = [] ->
      rxQ (fst (rxWork [RdData [LF]] st)) = [[]]
      /\ fst (rxNonblock (fst (rxWork [RdData [LF]] st))) = []
      /\ fst (rxNonblock st) = []).
Proof.
  destruct st as [tf rf e tq rq tc rc]; cbn [rxCur rxQ]. intros ->.
  split; [reflexivity|]. intros ->. auto.
Qed.

Lemma blank_line_empty_record_witness :
  let st := mkPipe 3 3 false [] [] [] [] in
  rxCur st = []
  /\ rxQ (fst (rxWork [RdData [LF]] st)) = rxQ st ++ [[]]
  /\ (rxQ st = [] ->
      rxQ (fst (rxWork [RdData [LF]] st)) = [[]]
      /\ fst (rxNonblock (fst (rxWork [RdData [LF]] st))) = []
      /\ fst (rxNonblock st) = []).
Proof.
  intros st. assert (H : rxCur st = []) by reflexivity.
  split; [exact H|]. exact (blank_line_empty_record st H).
Defined.

(** C3 (counterexample): a record [ab] is queued and the first [send]
    transmits one byte of its three; [txWork] keeps the suffix and, in the
    same pass, sends it again before the would-block result stops it. *)
Lemma tx_partial_send_retries :
  txWork (mkPipe 5 5 false [list_ascii_of_string "ab"] [] [] []) [SendN 1; SendEagain]
  = (TxDone (mkPipe 5 5 false [] [] (list_ascii_of_string "b" ++ [LF]) []),
     [EvSend 5 (list_ascii_of_string "ab" ++ [LF]);
      EvSend 5 (list_ascii_of_string "b" ++ [LF])]).
Proof. reflexivity. Qed.

(** C3 (amended): when a [send] transmits only part of the current
    record, [txWork] keeps exactly the unsent suffix as the current record
    and, in the same pass, immediately sends that suffix again; the pass
    goes on as a pass started from that state. *)
Theorem tx_partial_send_continues (st : jsonpipe) (n : nat) (rs : list send_result) :
  0 < n -> n < List.length (txCur (tx_materialize st)) ->
  fst (txWork st (SendN n :: rs))
  = fst (txWork (set_txCur (tx_materialize st) (skipn n (txCur (tx_materialize st)))) rs)
  /\ exists ev,
       snd (txWork st (SendN n :: rs))
       = EvSend (txFd (tx_materialize st)) (txCur (tx_materialize st))
         :: EvSend (txFd (tx_materialize st)) (skipn n (txCur (tx_materialize st))) :: ev.
Proof.
  intros Hn Hlt. unfold txWork.
  set (st1 := tx_materialize st) in *.
  assert (Hne : skipn n (txCur st1) <> []).
  { intros E. apply (f_equal (@List.length ascii)) in E.
    rewrite length_skipn in E. simpl in E. lia. }
  destruct (tx_first_send rs (set_txCur st1 (skipn n (txCur st1))) Hne) as [ev Hev].
  cbn [tx_loop]. fold st1.
  destruct (txCur st1) as [|c cur] eqn:E; [simpl in Hlt; lia|].
  apply Nat.ltb_lt in Hlt. rewrite Hlt.
  revert Hev. destruct_tx. intros Hev. simpl in Hev |- *.
  split; [reflexivity|]. exists ev. now rewrite Hev.
Qed.

Lemma tx_partial_send_continues_witness :
  0 < 1
  /\ 1 < List.length (txCur (tx_materialize
                               (mkPipe 5 5 false [list_ascii_of_string "ab"] [] [] [])))
  /\ fst (txWork (mkPipe 5 5 false [list_ascii_of_string "ab"] [] [] []) [SendN 1; SendEagain])
     = fst (txWork (set_txCur
                      (tx_materialize (mkPipe 5 5 false [list_ascii_of_string "ab"] [] [] []))
                      (skipn 1 (txCur (tx_materialize
                         (mkPipe 5 5 false [list_ascii_of_string "ab"] [] [] []))))) [SendEagain])
  /\ exists ev,
       snd (txWork (mkPipe 5 5 false [list_ascii_of_string "ab"] [] [] []) [SendN 1; SendEagain])
       = EvSend 5 (list_ascii_of_string "ab" ++ [LF])
         :: EvSend 5 (list_ascii_of_string "b" ++ [LF]) :: ev.
Proof.
  assert (H1 : 0 < 1) by lia.
  assert (H2 : 1 < List.length (txCur (tx_materialize
                 (mkPipe 5 5 false [list_ascii_of_string "ab"] [] [] [])))) by (simpl; lia).
  destruct (tx_partial_send_continues
              (mkPipe 5 5 false [list_ascii_of_string "ab"] [] [] []) 1 [SendEagain] H1 H2)
    as [Ha Hb].
  split; [exact H1|]. split; [exact H2|]. split; [exact Ha|]. exact Hb.
Defined.

(** C2: the receive direction closes without signalling [rxQNonempty].
    With an empty queue and no partial record, a caller of [rxBlock] is
    waiting; an end of stream or a read error closes [rxFd], after which
    the loop test would return the empty string, but [rxWork] emits no
    notify, so the waiter stays blocked.  [closeRx], also run by the
    destructor, never notifies either. *)
Theorem rx_close_without_notify (st : jsonpipe) (rest : list read_result) :
  rxQ st = [] -> rxCur st = [] -> (rxFd st <> -1)%Z ->
  rxBlock_check st = Waiting
  /\ (let '(st', ev) := rxWork (RdEof :: rest) st in
      rxFd st' = (-1)%Z /\ rxBlock_check st' = Returned [] st' /\ waiter_after ev st' = Waiting)
  /\ (let '(st', ev) := rxWork (RdError :: rest) st in
      rxFd st' = (-1)%Z /\ rxBlock_check st' = Returned [] st' /\ waiter_after ev st' = Waiting)
  /\ existsb is_notify (snd (closeRx st)) = false.
Proof.
  destruct st as [tf rf e tq rq tc rc]; cbn [rxQ rxCur rxFd]. intros -> -> Hf.
  apply Z.eqb_neq in Hf.
  unfold rxBlock_check, rxWork. cbn. unfold closeRx. cbn. rewrite Hf.
  destruct (rf =? tf)%Z; cbn; repeat split; discriminate.
Qed.

Lemma rx_close_without_notify_witness :
  let st := mkPipe 7 7 false [] [] [] [] in
  (rxQ st = [] /\ rxCur st = [] /\ (rxFd st <> -1)%Z)
  /\ rxBlock_check st = Waiting
  /\ (let '(st', ev) := rxWork [RdEof] st in
      rxFd st' = (-1)%Z /\ rxBlock_check st' = Returned [] st' /\ waiter_after ev st' = Waiting)
  /\ (let '(st', ev) := rxWork [RdError] st in
      rxFd st' = (-1)%Z /\ rxBlock_check st' = Returned [] st' /\ waiter_after ev st' = Waiting)
  /\ existsb is_notify (snd (closeRx st)) = false.
Proof.
  intros st.
  assert (H1 : rxQ st = []) by reflexivity.
  assert (H2 : rxCur st = []) by reflexivity.
  assert (H3 : (rxFd st <> -1)%Z) by (simpl; lia).
  split; [split; [exact H1|split; [exact H2|exact H3]]|].
  exact (rx_close_without_notify st [] H1 H2 H3).
Defined.

(** C8: [txEof] writes [txEofFlag] without taking [mutex0], while [tx],
    [rxNonblock] and [rxBlock] touch the members only under it. *)
Theorem txEof_unguarded :
  guarded (trace_of OpTxEof) = false
  /\ guarded (trace_of OpTx) = true
  /\ guarded (trace_of OpRxNonblock) = true
  /\ guarded (trace_of OpRxBlock) = true.
Proof. repeat split. Qed.

(* ================================================================= *)
(** * Further properties of the container codecs *)

Lemma skip_spaces_app (ws s : text) :
  forallb is_space ws = true -> jsonSkipSpace (ws ++ s) = jsonSkipSpace s.
Proof.
  induction ws as [|c ws IH]; simpl; [reflexivity|].
  intros H. apply andb_true_iff in H as [H1 H2]. rewrite H1. auto.
Qed.

Lemma vec_read {T} (P : T -> Prop) (defT : T) (wrT : T -> text) (rdT : reader T)
    (HT : codec_ok P wrT rdT) (l : list T) (rest : text) (w : list T) :
  Forall P l -> rdJson_vec defT rdT (wrJson_vec wrT l ++ rest) w = (true, rest, l).
Proof.
  intros Hl. unfold rdJson_vec, wrJson_vec.
  rewrite <- !app_assoc. cbn [app jsonSkipSpace peek advance]. autorewrite with chars.
  cbv iota beta. simpl negb. cbv iota.
  apply (vec_loop_read P defT wrT rdT HT); auto.
  cbn [advance tl]. rewrite length_app. pose proof (elems_length wrT l false). simpl. lia.
Qed.

Lemma trailing_elems_length {T} (wrT : T -> text) (l : list T) :
  List.length l <= List.length (trailing_elems wrT l).
Proof.
  induction l as [|x l IH]; simpl; [lia|].
  unfold trailing_elems in *. simpl. rewrite !length_app. simpl. lia.
Qed.

Lemma vec_trailing_loop {T} (P : T -> Prop) (defT : T) (wrT : T -> text) (rdT : reader T)
    (HT : codec_ok P wrT rdT) (l : list T) :
  forall fuel acc r, Forall P l -> List.length l < fuel ->
  rdJson_vec_loop defT rdT fuel (trailing_elems wrT l ++ r) acc
  = rdJson_vec_loop defT rdT (fuel - List.length l) r (acc ++ l).
Proof.
  induction l as [|x l IH]; intros fuel acc r HP Hf.
  - simpl. rewrite app_nil_r, Nat.sub_0_r. reflexivity.
  - destruct fuel as [|f]; [simpl in Hf; lia|].
    apply Forall_cons_iff in HP as [Px Pl].
    destruct (HT x Px) as [Hh Hrd].
    change (trailing_elems wrT (x :: l)) with ((wrT x ++ [COMMA]) ++ trailing_elems wrT l).
    rewrite <- !app_assoc. cbn [rdJson_vec_loop].
    rewrite head_ok_skip by exact Hh.
    destruct (head_ok_peek _ ([COMMA] ++ trailing_elems wrT l ++ r) Hh) as [Hp _].
    rewrite Hp. rewrite Hrd by reflexivity. cbn [negb app jsonSkipSpace peek].
    autorewrite with chars. cbv iota beta. cbn [advance tl].
    rewrite IH by (auto; simpl in Hf; lia).
    rewrite <- app_assoc. reflexivity.
Qed.

Lemma trailing_entries_length {K V} (wrK : K -> text) (wrV : V -> text) (l : list (K * V)) :
  List.length l <= List.length (trailing_entries wrK wrV l).
Proof.
  unfold trailing_entries.
  induction l as [|x l IH]; [simpl; lia|].
  cbn [map List.concat]. rewrite !length_app. cbn [List.length].
  rewrite ?length_app. cbn [List.length]. lia.
Qed.

Lemma map_trailing_loop {K V} (PK : K -> Prop) (PV : V -> Prop) (defK : K) (defV : V)
    (wrK : K -> text) (wrV : V -> text) (rdK : reader K) (rdV : reader V)
    (cmp : K -> K -> comparison)
    (HK : codec_ok PK wrK rdK) (HV : codec_ok PV wrV rdV) (l : list (K * V)) :
  forall fuel acc r, Forall (fun kv => PK (fst kv) /\ PV (snd kv)) l -> List.length l < fuel ->
  rdJson_map_loop defK defV rdK rdV cmp fuel (trailing_entries wrK wrV l ++ r) acc
  = rdJson_map_loop defK defV rdK rdV cmp (fuel - List.length l) r
      (fold_left (map_ins cmp) l acc).
Proof.
  induction l as [|[k v] l IH]; intros fuel acc r HP Hf.
  - simpl. rewrite Nat.sub_0_r. reflexivity.
  - destruct fuel as [|f]; [simpl in Hf; lia|].
    apply Forall_cons_iff in HP as [[Pk Pv] Pl].
    destruct (HK k Pk) as [Hhk Hrk]. destruct (HV v Pv) as [Hhv Hrv].
    change (trailing_entries wrK wrV ((k, v) :: l))
      with ((wrK k ++ [COLON] ++ wrV v ++ [COMMA]) ++ trailing_entries wrK wrV l).
    rewrite <- !app_assoc. cbn [rdJson_map_loop].
    rewrite head_ok_skip by exact Hhk.
    destruct (head_ok_peek _ ([COLON] ++ wrV v ++ [COMMA] ++ trailing_entries wrK wrV l ++ r)
                Hhk) as [_ Hp].
    rewrite Hp. rewrite Hrk by reflexivity.
    cbn [negb app jsonSkipSpace peek advance tl]. autorewrite with chars.
    cbn [negb advance tl]. rewrite head_ok_skip by exact Hhv.
    rewrite Hrv by reflexivity. cbn [negb app jsonSkipSpace peek].
    autorewrite with chars. cbv iota beta. cbn [advance tl].
    rewrite IH by (auto; simpl in Hf; lia). reflexivity.
Qed.

Lemma elems_size_exact {T} (szT : nat -> T -> nat) (wrT : T -> text)
    (Hx : forall n x, szT n x = n + List.length (wrT x)) (l : list T) :
  forall n, wrJsonSize_elems szT n l = n + fold_right (fun x a => List.length (wrT x) + a) 0 l.
Proof. induction l as [|x l IH]; intros n; simpl; [lia|]. rewrite IH, Hx. lia. Qed.

Lemma elems_written {T} (wrT : T -> text) (l : list T) (sep : bool) :
  List.length (wrJson_elems wrT sep l) + (if sep then 0 else if nonempty l then 1 else 0)
  = List.length l + fold_right (fun x a => List.length (wrT x) + a) 0 l.
Proof.
  revert sep. induction l as [|x l IH]; intros sep; [destruct sep; reflexivity|].
  specialize (IH true). cbn [wrJson_elems fold_right nonempty List.length] in *.
  rewrite !length_app. destruct sep; simpl; lia.
Qed.

Lemma entries_size_exact {K T} (szK : nat -> K -> nat) (wrK : K -> text)
    (szT : nat -> T -> nat) (wrT : T -> text)
    (HxK : forall n k, szK n k = n + List.length (wrK k))
    (HxT : forall n x, szT n x = n + List.length (wrT x)) (m : list (K * T)) :
  forall n, wrJsonSize_entries szK szT n m
            = n + fold_right (fun kv a => List.length (wrK (fst kv)) + List.length (wrT (snd kv))
                                          + 2 + a) 0 m.
Proof.
  induction m as [|[k v] m IH]; intros n; simpl; [lia|]. rewrite IH, HxT, HxK. lia.
Qed.

Lemma entries_written {K T} (wrK : K -> text) (wrT : T -> text) (m : list (K * T))
    (sep : bool) :
  List.length (wrJson_entries wrK wrT sep m) + (if sep then 0 else if nonempty m then 1 else 0)
  = fold_right (fun kv a => List.length (wrK (fst kv)) + List.length (wrT (snd kv)) + 2 + a)
      0 m.
Proof.
  revert sep. induction m as [|[k v] m IH]; intros sep; [destruct sep; reflexivity|].
  specialize (IH true). cbn [wrJson_entries fold_right nonempty fst snd] in *.
  rewrite !length_app. cbn [List.length]. rewrite ?length_app. destruct sep; simpl; lia.
Qed.

(** X1: [fromJson] into a [vector] or a [map] stops at the closing
    bracket and never looks at the bytes after it: an encoding followed by
    any bytes at all reads back as the encoded value. *)
Theorem fromJson_ignores_trailing_bytes (t : shape) (rdv : reader (denote (SVec t)))
    (rdm : reader (denote (SMap t))) (l : denote (SVec t)) (m : denote (SMap t))
    (junk : text) (w : denote (SVec t)) (w' : denote (SMap t)) :
  rdJson_of (SVec t) = Some rdv -> rdJson_of (SMap t) = Some rdm ->
  wf (SVec t) l -> wf (SMap t) m ->
  fromJson rdv (wrJson_of (SVec t) l ++ junk) w = (true, l)
  /\ fromJson rdm (wrJson_of (SMap t) m ++ junk) w' = (true, m).
Proof.
  intros Hv Hm Hl [Hs Hm']. simpl in Hv, Hm.
  destruct (rdJson_of t) as [rd|] eqn:E; [|discriminate].
  injection Hv as <-. injection Hm as <-. unfold fromJson. cbn [wrJson_of].
  split.
  - rewrite (vec_read (wf t) (default_of t) (wrJson_of t) rd (codec_of_ok t rd E)) by exact Hl.
    reflexivity.
  - rewrite (map_read (fun _ => True) (wf t) [] (default_of t) wrJson_string (wrJson_of t)
               rdJson_string rd text_compare string_codec_ok (codec_of_ok t rd E)).
    2: { eapply Forall_impl; [|exact Hm']. simpl. auto. }
    f_equal. exact (fold_insert_sorted text_compare text_compare_antisym m [] Hs).
Qed.

Lemma fromJson_ignores_trailing_bytes_witness :
  exists rdv rdm,
    rdJson_of (SVec SNat) = Some rdv /\ rdJson_of (SMap SNat) = Some rdm
    /\ wf (SVec SNat) [4; 2] /\ wf (SMap SNat) [(list_ascii_of_string "k", 7)]
    /\ fromJson rdv (wrJson_of (SVec SNat) [4; 2] ++ list_ascii_of_string "x]]") [9]
       = (true, [4; 2])
    /\ fromJson rdm (wrJson_of (SMap SNat) [(list_ascii_of_string "k", 7)]
                     ++ list_ascii_of_string "garbage") []
       = (true, [(list_ascii_of_string "k", 7)]).
Proof.
  do 2 eexists. split; [reflexivity|]. split; [reflexivity|].
  assert (H1 : wf (SVec SNat) [4; 2]) by (repeat constructor).
  assert (H2 : wf (SMap SNat) [(list_ascii_of_string "k", 7)]) by (split; repeat constructor).
  split; [exact H1|]. split; [exact H2|].
  exact (fromJson_ignores_trailing_bytes SNat _ _ [4; 2] [(list_ascii_of_string "k", 7)]
           (list_ascii_of_string "x]]") [9] [] eq_refl eq_refl H1 H2).
Defined.

(** X2: the [vector] and [map] readers ignore any run of blanks (space,
    tab, newline, carriage return) before the opening bracket: the input
    reads exactly as it would without them. *)
Theorem readers_skip_leading_blanks {T K V} (defT : T) (rdT : reader T)
    (defK : K) (defV : V) (rdK : reader K) (rdV : reader V) (cmp : K -> K -> comparison)
    (ws s : text) (arr : list T) (m : list (K * V)) :
  forallb is_space ws = true ->
  rdJson_vec defT rdT (ws ++ s) arr = rdJson_vec defT rdT s arr
  /\ rdJson_map defK defV rdK rdV cmp (ws ++ s) m = rdJson_map defK defV rdK rdV cmp s m.
Proof.
  intros H. unfold rdJson_vec, rdJson_map. rewrite skip_spaces_app by exact H. auto.
Qed.

Lemma readers_skip_leading_blanks_witness :
  forallb is_space (list_ascii_of_string " " ++ [LF; "009"%char; "013"%char]) = true
  /\ rdJson_vec 0 rdJson_nat
       ((list_ascii_of_string " " ++ [LF; "009"%char; "013"%char])
          ++ list_ascii_of_string "[3]") []
     = rdJson_vec 0 rdJson_nat (list_ascii_of_string "[3]") []
  /\ rdJson_map [] 0 rdJson_string rdJson_nat text_compare
       ((list_ascii_of_string " " ++ [LF; "009"%char; "013"%char])
          ++ list_ascii_of_string "[3]") []
     = rdJson_map [] 0 rdJson_string rdJson_nat text_compare (list_ascii_of_string "[3]") [].
Proof.
  assert (H : forallb is_space (list_ascii_of_string " " ++ [LF; "009"%char; "013"%char])
              = true) by reflexivity.
  split; [exact H|].
  exact (readers_skip_leading_blanks 0 rdJson_nat [] 0 rdJson_string rdJson_nat text_compare
           _ _ [] [] H).
Defined.

(** X3: a comma before the closing bracket is accepted: [[x1,...,xn,]]
    reads as the vector [x1 ... xn], and an object whose last member is
    followed by a comma reads as the same map as without the comma. *)
Theorem trailing_comma_accepted (t : shape) (rd : reader (denote t))
    (l : list (denote t)) (m : list (text * denote t)) (rest : text)
    (w : list (denote t)) (w' : list (text * denote t)) :
  rdJson_of t = Some rd -> Forall (wf t) l -> Forall (fun kv => wf t (snd kv)) m ->
  rdJson_vec (default_of t) rd (LBRACK :: trailing_elems (wrJson_of t) l ++ RBRACK :: rest) w
  = (true, rest, l)
  /\ rdJson_map [] (default_of t) rdJson_string rd text_compare
       (LBRACE :: trailing_entries wrJson_string (wrJson_of t) m ++ RBRACE :: rest) w'
     = rdJson_map [] (default_of t) rdJson_string rd text_compare
         (wrJson_map wrJson_string (wrJson_of t) m ++ rest) w'.
Proof.
  intros E Hl Hm. pose proof (codec_of_ok t rd E) as HT.
  assert (Hm2 : Forall (fun kv => (fun _ : text => True) (fst kv) /\ wf t (snd kv)) m).
  { eapply Forall_impl; [|exact Hm]. simpl. auto. }
  split.
  - unfold rdJson_vec. cbn [jsonSkipSpace]. rewrite space_LBRACK. cbn [peek].
    rewrite eqb_self. cbn [negb advance tl].
    rewrite (vec_trailing_loop (wf t) (default_of t) (wrJson_of t) rd HT) by
      (auto; pose proof (trailing_elems_length (wrJson_of t) l); rewrite length_app; lia).
    rewrite length_app. cbn [List.length].
    pose proof (trailing_elems_length (wrJson_of t) l) as Hlen.
    replace (S (List.length (trailing_elems (wrJson_of t) l) + S (List.length rest))
             - List.length l)
      with (S (List.length (trailing_elems (wrJson_of t) l) + S (List.length rest)
               - List.length l)) by lia.
    cbn [rdJson_vec_loop jsonSkipSpace]. rewrite space_RBRACK. cbn [peek].
    rewrite eqb_self. reflexivity.
  - etransitivity;
      [|symmetry; exact (map_read (fun _ => True) (wf t) [] (default_of t) wrJson_string
                           (wrJson_of t) rdJson_string rd text_compare string_codec_ok HT
                           m rest w' Hm2)].
    unfold rdJson_map. cbn [jsonSkipSpace]. rewrite space_LBRACE. cbn [peek].
    rewrite eqb_self. cbn [negb advance tl].
    pose proof (trailing_entries_length wrJson_string (wrJson_of t) m) as Hlen.
    rewrite (map_trailing_loop (fun _ => True) (wf t) [] (default_of t) wrJson_string
               (wrJson_of t) rdJson_string rd text_compare string_codec_ok HT)
      by (auto; rewrite length_app; unfold text in *; lia).
    rewrite length_app. cbn [List.length]. unfold text in *.
    match goal with
    | |- rdJson_map_loop _ _ _ _ _ ?f _ _ = _ => destruct f as [|k] eqn:Ek; [lia|]
    end.
    cbn [rdJson_map_loop jsonSkipSpace]. rewrite space_RBRACE. cbn [peek].
    rewrite eqb_self. reflexivity.
Qed.

Lemma trailing_comma_accepted_witness :
  Forall (wf SNat) [1; 2]
  /\ Forall (fun kv => wf SNat (snd kv)) [(list_ascii_of_string "a", 5)]
  /\ rdJson_vec 0 rdJson_nat (LBRACK :: trailing_elems wrJson_nat [1; 2] ++ [RBRACK]) []
     = (true, [], [1; 2])
  /\ rdJson_map [] 0 rdJson_string rdJson_nat text_compare
       (LBRACE :: trailing_entries wrJson_string wrJson_nat [(list_ascii_of_string "a", 5)]
          ++ [RBRACE]) []
     = rdJson_map [] 0 rdJson_string rdJson_nat text_compare
         (wrJson_map wrJson_string wrJson_nat [(list_ascii_of_string "a", 5)] ++ []) [].
Proof.
  assert (H1 : Forall (wf SNat) [1; 2]) by (repeat constructor).
  assert (H2 : Forall (fun kv => wf SNat (snd kv)) [(list_ascii_of_string "a", 5)])
    by (repeat constructor).
  split; [exact H1|]. split; [exact H2|].
  exact (trailing_comma_accepted SNat rdJson_nat [1; 2] [(list_ascii_of_string "a", 5)]
           [] [] [] eq_refl H1 H2).
Defined.

(** X4: how reading into a [vector] fails.  When the first non-blank byte
    is not [[] (for instance on empty input) the reader fails with the
    destination untouched.  Once the bracket is seen the destination is
    cleared, so when an element fails to parse the destination is left
    holding exactly the elements read before it. *)
Theorem rdJson_vec_failure (t : shape) (rd : reader (denote t)) (l : list (denote t))
    (s r : text) (w : list (denote t)) :
  rdJson_of t = Some rd -> Forall (wf t) l ->
  (peek (jsonSkipSpace r) =? RBRACK)%char = false ->
  fst (fst (rd (jsonSkipSpace r) (default_of t))) = false ->
  ((peek (jsonSkipSpace s) =? LBRACK)%char = false ->
   rdJson_vec (default_of t) rd s w = (false, jsonSkipSpace s, w))
  /\ fst (fst (rdJson_vec (default_of t) rd (LBRACK :: trailing_elems (wrJson_of t) l ++ r) w))
     = false
  /\ snd (rdJson_vec (default_of t) rd (LBRACK :: trailing_elems (wrJson_of t) l ++ r) w) = l.
Proof.
  intros E Hl Hr Hf. pose proof (codec_of_ok t rd E) as HT. split.
  { intros Hs. unfold rdJson_vec. now rewrite Hs. }
  unfold rdJson_vec. cbn [jsonSkipSpace]. rewrite space_LBRACK. cbn [peek].
  rewrite eqb_self. cbn [negb advance tl].
  pose proof (trailing_elems_length (wrJson_of t) l) as Hlen.
  rewrite (vec_trailing_loop (wf t) (default_of t) (wrJson_of t) rd HT)
    by (auto; rewrite length_app; lia).
  match goal with
  | |- context [rdJson_vec_loop _ _ ?f r _] =>
    destruct f as [|k] eqn:Ek; [rewrite length_app in Ek; lia|]
  end.
  cbn [rdJson_vec_loop]. rewrite Hr.
  destruct (rd (jsonSkipSpace r) (default_of t)) as [[ok s'] v]. simpl in Hf. subst ok.
  split; reflexivity.
Qed.

Lemma rdJson_vec_failure_witness :
  Forall (wf SNat) [1; 2]
  /\ (peek (jsonSkipSpace (list_ascii_of_string "x]")) =? RBRACK)%char = false
  /\ fst (fst (rdJson_nat (jsonSkipSpace (list_ascii_of_string "x]")) 0)) = false
  /\ (((peek (jsonSkipSpace (list_ascii_of_string " 7")) =? LBRACK)%char = false ->
       rdJson_vec 0 rdJson_nat (list_ascii_of_string " 7") [9]
       = (false, jsonSkipSpace (list_ascii_of_string " 7"), [9]))
      /\ fst (fst (rdJson_vec 0 rdJson_nat
                     (LBRACK :: trailing_elems wrJson_nat [1; 2] ++ list_ascii_of_string "x]")
                     [9])) = false
      /\ snd (rdJson_vec 0 rdJson_nat
                (LBRACK :: trailing_elems wrJson_nat [1; 2] ++ list_ascii_of_string "x]") [9])
         = [1; 2]).
Proof.
  assert (H1 : Forall (wf SNat) [1; 2]) by (repeat constructor).
  assert (H2 : (peek (jsonSkipSpace (list_ascii_of_string "x]")) =? RBRACK)%char = false)
    by reflexivity.
  assert (H3 : fst (fst (rdJson_nat (jsonSkipSpace (list_ascii_of_string "x]")) 0)) = false)
    by reflexivity.
  split; [exact H1|]. split; [exact H2|]. split; [exact H3|].
  exact (rdJson_vec_failure SNat rdJson_nat [1; 2] (list_ascii_of_string " 7")
           (list_ascii_of_string "x]") [9] eq_refl H1 H2 H3).
Defined.

(** X5: how reading into a [map] fails.  When the first non-blank byte is
    not [{] (for instance on empty input) the reader fails with the
    destination untouched.  Once the brace is seen the destination is
    cleared, so when a key fails to parse the destination is left holding
    the members read before it, each key bound to its last value. *)
Theorem rdJson_map_failure (t : shape) (rd : reader (denote t))
    (m : list (text * denote t)) (s r : text) (w : list (text * denote t)) :
  rdJson_of t = Some rd -> Forall (fun kv => wf t (snd kv)) m ->
  (peek (jsonSkipSpace r) =? RBRACE)%char = false ->
  fst (fst (rdJson_string (jsonSkipSpace r) [])) = false ->
  ((peek (jsonSkipSpace s) =? LBRACE)%char = false ->
   rdJson_map [] (default_of t) rdJson_string rd text_compare s w = (false, jsonSkipSpace s, w))
  /\ fst (fst (rdJson_map [] (default_of t) rdJson_string rd text_compare
                 (LBRACE :: trailing_entries wrJson_string (wrJson_of t) m ++ r) w)) = false
  /\ forall k,
       map_lookup text_compare k
         (snd (rdJson_map [] (default_of t) rdJson_string rd text_compare
                 (LBRACE :: trailing_entries wrJson_string (wrJson_of t) m ++ r) w))
       = last_binding text_compare k m.
Proof.
  intros E Hm Hr Hf. pose proof (codec_of_ok t rd E) as HT. split.
  { intros Hs. unfold rdJson_map. now rewrite Hs. }
  assert (Hm2 : Forall (fun kv => (fun _ : text => True) (fst kv) /\ wf t (snd kv)) m).
  { eapply Forall_impl; [|exact Hm]. simpl. auto. }
  unfold rdJson_map. cbn [jsonSkipSpace]. rewrite space_LBRACE. cbn [peek].
  rewrite eqb_self. cbn [negb advance tl].
  pose proof (trailing_entries_length wrJson_string (wrJson_of t) m) as Hlen.
  rewrite (map_trailing_loop (fun _ => True) (wf t) [] (default_of t) wrJson_string
             (wrJson_of t) rdJson_string rd text_compare string_codec_ok HT)
    by (auto; rewrite length_app; unfold text in *; lia).
  match goal with
  | |- context [rdJson_map_loop _ _ _ _ _ ?f r _] =>
    destruct f as [|k] eqn:Ek; [rewrite length_app in Ek; unfold text in *; lia|]
  end.
  cbn [rdJson_map_loop]. rewrite Hr.
  destruct (rdJson_string (jsonSkipSpace r) []) as [[ok s'] v]. simpl in Hf. subst ok.
  cbn [negb fst snd]. split; [reflexivity|]. intros key.
  rewrite (lookup_fold text_compare text_compare_antisym text_compare_eq). simpl.
  apply last_binding_fold.
Qed.

Lemma rdJson_map_failure_witness :
  Forall (fun kv => wf SNat (snd kv))
    [(list_ascii_of_string "a", 1); (list_ascii_of_string "a", 2)]
  /\ (peek (jsonSkipSpace (list_ascii_of_string "7:3}")) =? RBRACE)%char = false
  /\ fst (fst (rdJson_string (jsonSkipSpace (list_ascii_of_string "7:3}")) [])) = false
  /\ (((peek (jsonSkipSpace []) =? LBRACE)%char = false ->
       rdJson_map [] 0 rdJson_string rdJson_nat text_compare [] []
       = (false, jsonSkipSpace [], []))
      /\ fst (fst (rdJson_map [] 0 rdJson_string rdJson_nat text_compare
                     (LBRACE :: trailing_entries wrJson_string wrJson_nat
                                 [(list_ascii_of_string "a", 1); (list_ascii_of_string "a", 2)]
                        ++ list_ascii_of_string "7:3}") [])) = false
      /\ forall k,
           map_lookup text_compare k
             (snd (rdJson_map [] 0 rdJson_string rdJson_nat text_compare
                     (LBRACE :: trailing_entries wrJson_string wrJson_nat
                                 [(list_ascii_of_string "a", 1); (list_ascii_of_string "a", 2)]
                        ++ list_ascii_of_string "7:3}") []))
           = last_binding text_compare k
               [(list_ascii_of_string "a", 1); (list_ascii_of_string "a", 2)]).
Proof.
  assert (H1 : Forall (fun kv => wf SNat (snd kv))
                 [(list_ascii_of_string "a", 1); (list_ascii_of_string "a", 2)])
    by (repeat constructor).
  assert (H2 : (peek (jsonSkipSpace (list_ascii_of_string "7:3}")) =? RBRACE)%char = false)
    by reflexivity.
  assert (H3 : fst (fst (rdJson_string (jsonSkipSpace (list_ascii_of_string "7:3}")) []))
               = false) by reflexivity.
  split; [exact H1|]. split; [exact H2|]. split; [exact H3|].
  exact (rdJson_map_failure SNat rdJson_nat
           [(list_ascii_of_string "a", 1); (list_ascii_of_string "a", 2)] []
           (list_ascii_of_string "7:3}") [] eq_refl H1 H2 H3).
Defined.

(** X6: when the element and key sizes are exact, the size pass of a
    [vector] or a [map] over-estimates the bytes written by exactly one
    when the container is non-empty, and is exact when it is empty. *)
Theorem container_size_slack {K T} (szK : nat -> K -> nat) (wrK : K -> text)
    (szT : nat -> T -> nat) (wrT : T -> text) (n : nat) (l : list T) (m : list (K * T)) :
  (forall n k, szK n k = n + List.length (wrK k)) ->
  (forall n x, szT n x = n + List.length (wrT x)) ->
  wrJsonSize_vec szT n l = n + List.length (wrJson_vec wrT l) + (if nonempty l then 1 else 0)
  /\ wrJsonSize_map szK szT n m
     = n + List.length (wrJson_map wrK wrT m) + (if nonempty m then 1 else 0).
Proof.
  intros HxK HxT. split.
  - unfold wrJsonSize_vec, wrJson_vec. rewrite (elems_size_exact szT wrT HxT).
    pose proof (elems_written wrT l false) as H. rewrite !length_app. simpl in H |- *. lia.
  - unfold wrJsonSize_map, wrJson_map. rewrite (entries_size_exact szK wrK szT wrT HxK HxT).
    pose proof (entries_written wrK wrT m false) as H. rewrite !length_app. simpl in H |- *.
    lia.
Qed.

Lemma container_size_slack_witness :
  (forall n k, wrJsonSize_string n k = n + List.length (wrJson_string k))
  /\ (forall n x, wrJsonSize_nat n x = n + List.length (wrJson_nat x))
  /\ wrJsonSize_vec wrJsonSize_nat 0 [10; 2]
     = 0 + List.length (wrJson_vec wrJson_nat [10; 2]) + 1
  /\ wrJsonSize_map wrJsonSize_string wrJsonSize_nat 0 []
     = 0 + List.length (wrJson_map wrJson_string wrJson_nat []) + 0.
Proof.
  assert (H1 : forall n k, wrJsonSize_string n k = n + List.length (wrJson_string k)).
  { intros n k. unfold wrJsonSize_string, wrJson_string.
    rewrite !length_app, flat_map_escape_length. simpl. lia. }
  assert (H2 : forall n x, wrJsonSize_nat n x = n + List.length (wrJson_nat x)).
  { intros n x. reflexivity. }
  split; [exact H1|]. split; [exact H2|].
  exact (container_size_slack wrJsonSize_string wrJson_string wrJsonSize_nat wrJson_nat
           0 [10; 2] [] H1 H2).
Defined.

(* ================================================================= *)
(** * Further properties of the transport *)

Ltac z_cases :=
  repeat match goal with
         | |- context [(?a =? ?b)%Z] => destruct (Z.eqb_spec a b)
         end.

Lemma count_close_app (fd : Z) (a b : list io_event) :
  count_close fd (a ++ b) = count_close fd a + count_close fd b.
Proof. unfold count_close. now rewrite filter_app, length_app. Qed.

Lemma close_step (o : bool) (st : jsonpipe) (fd : Z) :
  fd <> (-1)%Z ->
  let '(st', ev) := if o then closeTx st else closeRx st in
  count_close fd ev + holds_fd st' fd = holds_fd st fd.
Proof.
  intros Hfd. destruct st as [tf rf e tq rq tc rc].
  destruct o; unfold closeTx, closeRx, holds_fd, count_close; cbn [txFd rxFd];
    cbn; z_cases; cbn in *; subst; cbn in *; z_cases; cbn in *; subst; try lia;
    congruence.
Qed.

Lemma run_closes_count (ops : list bool) :
  forall st fd, fd <> (-1)%Z ->
  let '(st', ev) := run_closes ops st in count_close fd ev + holds_fd st' fd = holds_fd st fd.
Proof.
  induction ops as [|o ops IH]; intros st fd Hfd; [reflexivity|].
  cbn [run_closes]. pose proof (close_step o st fd Hfd) as H1.
  destruct (if o then closeTx st else closeRx st) as [st1 ev1].
  specialize (IH st1 fd Hfd). destruct (run_closes ops st1) as [st2 ev2].
  rewrite count_close_app. lia.
Qed.

Lemma closeTx_fds (st : jsonpipe) :
  txFd (fst (closeTx st)) = (-1)%Z /\ rxFd (fst (closeTx st)) = rxFd st.
Proof.
  unfold closeTx. destruct (Z.eqb_spec (txFd st) (-1)); simpl; auto.
Qed.

Lemma closeRx_fds (st : jsonpipe) :
  rxFd (fst (closeRx st)) = (-1)%Z /\ txFd (fst (closeRx st)) = txFd st.
Proof.
  unfold closeRx. destruct (Z.eqb_spec (rxFd st) (-1)); simpl; auto.
Qed.

Lemma destroy_count (st : jsonpipe) (fd : Z) :
  fd <> (-1)%Z ->
  let '(st', ev) := jsonpipe_destroy st in
  txFd st' = (-1)%Z /\ rxFd st' = (-1)%Z /\ count_close fd ev = holds_fd st fd.
Proof.
  intros Hfd. pose proof (run_closes_count [true; false] st fd Hfd) as H.
  unfold jsonpipe_destroy. cbn [run_closes] in H.
  destruct (closeTx st) as [st1 ev1] eqn:E1. destruct (closeRx st1) as [st2 ev2] eqn:E2.
  rewrite app_nil_r in H.
  assert (Ht : txFd st2 = (-1)%Z /\ rxFd st2 = (-1)%Z).
  { pose proof (closeTx_fds st) as [A B]. rewrite E1 in A, B. simpl in A, B.
    pose proof (closeRx_fds st1) as [C D]. rewrite E2 in C, D. simpl in C, D.
    split; congruence. }
  destruct Ht as [Ht Hr]. split; [exact Ht|]. split; [exact Hr|].
  unfold holds_fd in H at 1. rewrite Ht, Hr in H.
  destruct (Z.eqb_spec fd (-1)); [congruence|]. simpl in H. lia.
Qed.

(** X7: every fd the object holds is closed exactly once.  Whatever
    sequence of [closeRx] and [closeTx] calls the receive and transmit
    passes have made, the destructor leaves both fds at [-1], and over the
    whole run [close] is called once on each fd the object held at the
    start (a socket shared by both directions included) and never on any
    other fd. *)
Theorem fds_closed_exactly_once (ops : list bool) (st : jsonpipe) (fd : Z) :
  fd <> (-1)%Z ->
  let '(st1, ev1) := run_closes ops st in
  let '(st2, ev2) := jsonpipe_destroy st1 in
  txFd st2 = (-1)%Z /\ rxFd st2 = (-1)%Z /\ count_close fd (ev1 ++ ev2) = holds_fd st fd.
Proof.
  intros Hfd. pose proof (run_closes_count ops st fd Hfd) as H1.
  destruct (run_closes ops st) as [st1 ev1].
  pose proof (destroy_count st1 fd Hfd) as H2.
  destruct (jsonpipe_destroy st1) as [st2 ev2].
  destruct H2 as [Ht [Hr Hc]]. split; [exact Ht|]. split; [exact Hr|].
  rewrite count_close_app. lia.
Qed.

Lemma fds_closed_exactly_once_witness :
  (5 <> -1)%Z
  /\ (let '(st1, ev1) := run_closes [false] (mkPipe 5 5 false [] [] [] []) in
      let '(st2, ev2) := jsonpipe_destroy st1 in
      txFd st2 = (-1)%Z /\ rxFd st2 = (-1)%Z
      /\ count_close 5 (ev1 ++ ev2) = holds_fd (mkPipe 5 5 false [] [] [] []) 5).
Proof.
  assert (H : (5 <> -1)%Z) by lia. split; [exact H|].
  exact (fds_closed_exactly_once [false] (mkPipe 5 5 false [] [] [] []) 5 H).
Defined.

Lemma has_lf_false (p : text) :
  Forall (fun c => (c =? LF)%char = false) p -> has_lf p = false.
Proof. induction 1 as [|c p Hc _ IH]; simpl; [reflexivity|]. now rewrite Hc, IH. Qed.

Lemma has_lf_false_inv (p : text) :
  has_lf p = false -> Forall (fun c => (c =? LF)%char = false) p.
Proof.
  induction p as [|c p IH]; simpl; intros H; [constructor|].
  apply orb_false_iff in H as [H1 H2]. constructor; auto.
Qed.

Lemma has_lf_app (a b : text) : has_lf (a ++ b) = has_lf a || has_lf b.
Proof. unfold has_lf. apply existsb_app. Qed.

Lemma rx_scan_act (fuel : nat) :
  forall p cur q act, List.length p < fuel ->
  snd (rx_scan fuel p cur q act) = act || has_lf p.
Proof.
  induction fuel as [|f IH]; intros p cur q act Hf; [simpl in Hf; lia|].
  destruct p as [|c r]; [simpl; now rewrite orb_false_r|].
  cbn [rx_scan]. destruct (memchr_nl (c :: r)) as [[pre post]|] eqn:E.
  - destruct (memchr_nl_some _ _ _ E) as [Hp _].
    assert (Hl : List.length post < f).
    { apply (f_equal (@List.length ascii)) in Hp. rewrite length_app in Hp.
      simpl in Hp, Hf. lia. }
    assert (Ht : has_lf (c :: r) = true).
    { rewrite Hp, has_lf_app. simpl. rewrite ?eqb_self. apply orb_true_r. }
    rewrite Ht, orb_true_r.
    destruct (negb (List.length cur =? 0)); rewrite IH by exact Hl; reflexivity.
  - rewrite (has_lf_false (c :: r)) by (now apply memchr_nl_none).
    simpl. now rewrite orb_false_r.
Qed.

Lemma rx_loop_data_eagain (cs : list text) :
  forall st act,
  rx_loop (map RdData cs ++ [RdEagain]) st act
  = (with_rx st (fold_left rx_feed (List.concat cs) (rxCur st, rxQ st)),
     act || has_lf (List.concat cs), []).
Proof.
  induction cs as [|c cs IH]; intros st act.
  - destruct st. simpl. now rewrite orb_false_r.
  - cbn [map app rx_loop List.concat].
    pose proof (rx_scan_spec (S (List.length c)) c (rxCur st) (rxQ st) act ltac:(lia)) as Hs.
    pose proof (rx_scan_act (S (List.length c)) c (rxCur st) (rxQ st) act ltac:(lia)) as Ha.
    destruct (rx_scan (S (List.length c)) c (rxCur st) (rxQ st) act) as [[cur q] act'].
    simpl in Ha. subst act'.
    rewrite IH, fold_left_app, <- Hs.
    change (set_rxQ (set_rxCur st cur) q) with (with_rx st (cur, q)).
    rewrite with_rx_twice, has_lf_app, orb_assoc. reflexivity.
Qed.

(** X8: a receive pass over data reads that ends on a would-block read
    wakes the threads waiting in [rxBlock] exactly when the bytes read
    contain a newline, that is when at least one record was completed; it
    makes no other I/O. *)
Theorem rxWork_notifies_iff_newline (st : jsonpipe) (cs : list text) :
  snd (rxWork (map RdData cs ++ [RdEagain]) st)
  = if has_lf (List.concat cs) then [EvNotify] else [].
Proof. unfold rxWork. rewrite rx_loop_data_eagain. reflexivity. Qed.

Lemma feed_records (rs : list text) :
  forall q, Forall (fun r => has_lf r = false) rs ->
  fold_left rx_feed (List.concat (map (fun r => r ++ [LF]) rs)) ([], q) = ([], q ++ rs).
Proof.
  induction rs as [|r rs IH]; intros q H; [simpl; now rewrite app_nil_r|].
  apply Forall_cons_iff in H as [H1 H2].
  cbn [map List.concat]. rewrite !fold_left_app.
  rewrite feed_no_nl by (now apply has_lf_false_inv). simpl.
  rewrite IH by exact H2. now rewrite <- app_assoc.
Qed.

Lemma has_lf_framed (rs : list text) :
  has_lf (List.concat (map (fun r => r ++ [LF]) rs)) = nonempty rs.
Proof.
  destruct rs as [|r rs]; [reflexivity|].
  cbn [map List.concat]. rewrite !has_lf_app. simpl. now rewrite orb_true_r.
Qed.

(** X9: newline framing is undone exactly by the receive pass.  Records
    that contain no newline, each followed by a newline and cut into reads
    at any byte offsets, are appended to [rxQ] in order by one receive pass
    starting from an empty partial record, which it leaves empty; waiters
    are woken exactly when there is at least one record. *)
Theorem rx_framing_recovers_records (st : jsonpipe) (rs cs : list text) :
  rxCur st = [] -> Forall (fun r => has_lf r = false) rs ->
  List.concat cs = List.concat (map (fun r => r ++ [LF]) rs) ->
  let '(st', ev) := rxWork (map RdData cs ++ [RdEagain]) st in
  rxQ st' = rxQ st ++ rs /\ rxCur st' = [] /\ ev = (if nonempty rs then [EvNotify] else []).
Proof.
  intros Hc Hr Hcs. unfold rxWork. rewrite rx_loop_data_eagain, Hcs, Hc.
  rewrite feed_records by exact Hr. rewrite has_lf_framed. simpl.
  split; [reflexivity|]. split; [reflexivity|]. now destruct (nonempty rs).
Qed.

Lemma rx_framing_recovers_records_witness :
  let st := mkPipe 3 3 false [] [list_ascii_of_string "old"] [] [] in
  let rs := [list_ascii_of_string "{a:1}"; []; list_ascii_of_string "[2]"] in
  let cs := [list_ascii_of_string "{a:"; list_ascii_of_string "1}" ++ [LF; LF];
             list_ascii_of_string "[2]" ++ [LF]] in
  (rxCur st = [] /\ Forall (fun r => has_lf r = false) rs
   /\ List.concat cs = List.concat (map (fun r => r ++ [LF]) rs))
  /\ (let '(st', ev) := rxWork (map RdData cs ++ [RdEagain]) st in
      rxQ st' = rxQ st ++ rs /\ rxCur st' = [] /\ ev = (if nonempty rs then [EvNotify] else [])).
Proof.
  intros st rs cs.
  assert (H1 : rxCur st = []) by reflexivity.
  assert (H2 : Forall (fun r => has_lf r = false) rs) by (repeat constructor).
  assert (H3 : List.concat cs = List.concat (map (fun r => r ++ [LF]) rs)) by reflexivity.
  split; [split; [exact H1|split; [exact H2|exact H3]]|].
  exact (rx_framing_recovers_records st rs cs H1 H2 H3).
Defined.

(** ** Transmit side *)

Lemma app_LF_cons (m : text) : exists c cs, m ++ [LF] = c :: cs.
Proof. destruct m as [|c m]; simpl; eauto. Qed.

Lemma tx_loop_queue (q : list text) :
  forall tf rf e rq rc,
  tx_loop (map (fun m => SendN (S (List.length m))) q) (mkPipe tf rf e q rq [] rc)
  = (let '(st', ev) := if e then closeTx (mkPipe tf rf e [] rq [] rc)
                       else (mkPipe tf rf e [] rq [] rc, []) in
     (TxDone st', map (fun m => EvSend tf (m ++ [LF])) q ++ ev)).
Proof.
  induction q as [|m q IH]; intros tf rf e rq rc.
  - simpl. destruct e; [|reflexivity]. destruct (closeTx _); reflexivity.
  - cbn [map tx_loop]. unfold tx_materialize. cbn [txCur txQ set_txQ set_txCur].
    cbn [txCur txFd rxFd txEofFlag txQ rxQ rxCur].
    destruct (app_LF_cons m) as [c [cs Hm]]. rewrite Hm.
    assert (Hl : S (List.length m) = List.length (c :: cs)).
    { rewrite <- Hm, length_app. simpl. lia. }
    rewrite Hl, Nat.ltb_irrefl, Nat.eqb_refl. cbn [set_txCur txFd rxFd txEofFlag txQ rxQ rxCur].
    unfold set_txCur, set_txQ. cbn [txCur txFd rxFd txEofFlag txQ rxQ rxCur].
    rewrite IH. cbn [map app]. destruct e; [destruct (closeTx _)|]; reflexivity.
Qed.

(** X10: when every [send] accepts the whole record, a transmit pass
    starting with no record in progress sends the queued records in queue
    order, each followed by a newline, as one [send] each, and empties the
    queue; if [txEof] has been called it then closes the transmit
    direction. *)
Theorem txWork_sends_queue_in_order (st : jsonpipe) :
  txCur st = [] ->
  txWork st (map (fun m => SendN (S (List.length m))) (txQ st))
  = (let '(st', ev) := if txEofFlag st then closeTx (set_txQ st []) else (set_txQ st [], []) in
     (TxDone st', map (fun m => EvSend (txFd st) (m ++ [LF])) (txQ st) ++ ev)).
Proof.
  destruct st as [tf rf e q rq tc rc]. cbn [txCur]. intros ->. unfold txWork.
  apply tx_loop_queue.
Qed.

Lemma txWork_sends_queue_in_order_witness :
  txCur (mkPipe 4 4 true [list_ascii_of_string "a"; list_ascii_of_string "bc"] [] [] []) = []
  /\ txWork (mkPipe 4 4 true [list_ascii_of_string "a"; list_ascii_of_string "bc"] [] [] [])
       [SendN 2; SendN 3]
     = (TxDone (mkPipe (-1) 4 true [] [] [] []),
        [EvSend 4 (list_ascii_of_string "a" ++ [LF]); EvSend 4 (list_ascii_of_string "bc" ++ [LF]);
         EvShutdown 4 SHUT_WR]).
Proof.
  assert (H : txCur (mkPipe 4 4 true [list_ascii_of_string "a"; list_ascii_of_string "bc"]
                      [] [] []) = []) by reflexivity.
  split; [exact H|].
  exact (txWork_sends_queue_in_order
           (mkPipe 4 4 true [list_ascii_of_string "a"; list_ascii_of_string "bc"] [] [] []) H).
Defined.

(** X11: [tx] appends the record at the back of [txQ].  When records were
    already queued it makes no I/O and leaves the sending to a later
    transmit pass; on an idle object it sends the record with its newline
    at once and, if the send completes, leaves the object idle again. *)
Theorem tx_queues_then_sends (st : jsonpipe) (s : text) (sends : list send_result) :
  (nonempty (txQ st) = true -> tx st s sends = (TxDone (set_txQ st (txQ st ++ [s])), []))
  /\ (txCur st = [] -> txQ st = [] -> txEofFlag st = false ->
      tx st s [SendN (S (List.length s))] = (TxDone st, [EvSend (txFd st) (s ++ [LF])])).
Proof.
  split.
  - intros H. unfold tx. destruct (txQ st) as [|x q] eqn:E; [discriminate|].
    cbn [txQ set_txQ]. cbn [app List.length].
    rewrite length_app. cbn [List.length]. rewrite Nat.add_1_r. reflexivity.
  - destruct st as [tf rf e q rq tc rc]. cbn [txCur txQ txEofFlag txFd].
    intros -> -> ->. unfold tx, set_txQ. cbn [txFd rxFd txEofFlag txQ rxQ txCur rxCur app].
    simpl Nat.eqb. cbv iota. unfold txWork.
    exact (tx_loop_queue [s] tf rf false rq rc).
Qed.

Lemma closeTx_rx (st : jsonpipe) :
  rxFd (fst (closeTx st)) = rxFd st /\ rxQ (fst (closeTx st)) = rxQ st
  /\ rxCur (fst (closeTx st)) = rxCur st /\ txQ (fst (closeTx st)) = txQ st
  /\ txCur (fst (closeTx st)) = txCur st /\ txEofFlag (fst (closeTx st)) = txEofFlag st.
Proof. unfold closeTx. destruct (txFd st =? -1)%Z; simpl; auto 7. Qed.

Lemma closeRx_tx (st : jsonpipe) :
  txFd (fst (closeRx st)) = txFd st /\ txQ (fst (closeRx st)) = txQ st
  /\ txCur (fst (closeRx st)) = txCur st /\ txEofFlag (fst (closeRx st)) = txEofFlag st
  /\ rxQ (fst (closeRx st)) = rxQ st /\ rxCur (fst (closeRx st)) = rxCur st.
Proof. unfold closeRx. destruct (rxFd st =? -1)%Z; simpl; auto 7. Qed.

Lemma materialize_empty (st : jsonpipe) :
  txCur (tx_materialize st) = [] -> txQ (tx_materialize st) = [].
Proof.
  unfold tx_materialize. destruct (txCur st) as [|c cur] eqn:Ec; [|intros H; exfalso].
  - destruct (txQ st) as [|m q] eqn:Eq; [now rewrite Eq|].
    simpl. intros H. destruct m; discriminate.
  - rewrite Ec in H. discriminate.
Qed.

Lemma materialize_rx (st : jsonpipe) :
  rxFd (tx_materialize st) = rxFd st /\ rxQ (tx_materialize st) = rxQ st
  /\ rxCur (tx_materialize st) = rxCur st.
Proof.
  unfold tx_materialize. destruct (txCur st), (txQ st); simpl; auto.
Qed.

Lemma tx_loop_settled (sends : list send_result) :
  forall st st' ev, tx_loop sends st = (TxDone st', ev) ->
  txFd st' = (-1)%Z \/ (txCur st' = [] /\ txQ st' = [] /\ txEofFlag st' = false)
  \/ txCur st' <> [].
Proof.
  induction sends as [|r sends IH]; intros st st' ev H; cbn [tx_loop] in H;
    pose proof (materialize_empty st) as Hm;
    destruct (txCur (tx_materialize st)) as [|c cur] eqn:Ec.
  1,3: specialize (Hm eq_refl);
    destruct (txEofFlag (tx_materialize st)) eqn:Ee;
    [ destruct (closeTx (tx_materialize st)) as [s1 e1] eqn:Ecl; inversion H; subst;
      left; pose proof (closeTx_fds (tx_materialize st)) as [Hf _];
      rewrite Ecl in Hf; exact Hf
    | inversion H; subst; right; left; auto ].
  - inversion H; subst. right; right. rewrite Ec. discriminate.
  - destruct r as [n| |].
    + destruct (n <? List.length (c :: cur)).
      * destruct (tx_loop sends _) as [o e'] eqn:Et. inversion H; subst. exact (IH _ _ _ Et).
      * destruct (n =? List.length (c :: cur)); [|discriminate].
        destruct (tx_loop sends _) as [o e'] eqn:Et. inversion H; subst. exact (IH _ _ _ Et).
    + inversion H; subst. right; right. rewrite Ec. discriminate.
    + destruct (closeTx (tx_materialize st)) as [s1 e1] eqn:Ecl. inversion H; subst.
      left; pose proof (closeTx_fds (tx_materialize st)) as [Hf _].
      rewrite Ecl in Hf; exact Hf.
Qed.

(** X12: a transmit pass that returns never leaves work behind that
    nothing will resume: afterwards either the transmit descriptor is
    closed, or a record is in progress (so [preSelect] waits for
    writability), or the queue is empty and [txEof] is not pending.
    [preSelect] thus asks for writability exactly when a record is in
    progress on an open descriptor. *)
Theorem txWork_leaves_nothing_stalled (st st' : jsonpipe) (sends : list send_result)
    (ev : list io_event) :
  txWork st sends = (TxDone st', ev) ->
  (nonempty (txQ st') = true -> txFd st' = (-1)%Z \/ txCur st' <> [])
  /\ (txEofFlag st' = true -> txFd st' = (-1)%Z \/ txCur st' <> [])
  /\ fst (preSelect st')
     = (if negb (txFd st' =? -1)%Z && nonempty (txCur st') then [txFd st'] else []).
Proof.
  intros H. unfold preSelect; cbn [fst].
  destruct (tx_loop_settled sends st st' ev H) as [Hf|[[Hc [Hq He]]|Hc]].
  - rewrite Hf. cbn. auto.
  - rewrite Hq, He, Hc. cbn. split; [discriminate|split; [discriminate|]].
    rewrite andb_false_r. reflexivity.
  - destruct (txCur st') as [|c cur]; [congruence|].
    cbn [nonempty orb]. rewrite andb_true_r. split; [|split]; auto; intros; right; discriminate.
Qed.

Lemma txWork_leaves_nothing_stalled_witness :
  exists st' ev,
  txWork (mkPipe 4 5 true [list_ascii_of_string "ab"] [] [] []) [SendN 1] = (TxDone st', ev)
  /\ ((nonempty (txQ st') = true -> txFd st' = (-1)%Z \/ txCur st' <> [])
      /\ (txEofFlag st' = true -> txFd st' = (-1)%Z \/ txCur st' <> [])
      /\ fst (preSelect st')
         = (if negb (txFd st' =? -1)%Z && nonempty (txCur st') then [txFd st'] else [])).
Proof.
  do 2 eexists. split; [reflexivity|].
  exact (txWork_leaves_nothing_stalled (mkPipe 4 5 true [list_ascii_of_string "ab"] [] [] [])
           _ [SendN 1] _ eq_refl).
Defined.

Lemma rx_loop_tx_frame (reads : list read_result) :
  forall st act, let st' := fst (fst (rx_loop reads st act)) in
  txFd st' = txFd st /\ txQ st' = txQ st /\ txCur st' = txCur st /\ txEofFlag st' = txEofFlag st.
Proof.
  induction reads as [|r reads IH]; intros st act; cbn [rx_loop]; [cbn; auto|].
  destruct r.
  - destruct (rx_scan _ _ _ _ _) as [[cur q] act'].
    destruct (IH (set_rxQ (set_rxCur st cur) q) act') as (H1 & H2 & H3 & H4).
    cbn zeta. rewrite H1, H2, H3, H4. cbn. auto.
  - pose proof (closeRx_tx (set_rxCur st [])) as (H1 & H2 & H3 & H4 & _).
    destruct (closeRx (set_rxCur st [])) as [s1 e1]. cbn in *. auto.
  - cbn. auto.
  - pose proof (closeRx_tx st) as (H1 & H2 & H3 & H4 & _).
    destruct (closeRx st) as [s1 e1]. cbn in *. auto.
Qed.

Lemma tx_loop_rx_frame (sends : list send_result) :
  forall st, match tx_loop sends st with
  | (TxDone st', _) => rxFd st' = rxFd st /\ rxQ st' = rxQ st /\ rxCur st' = rxCur st
  | (TxThrown, _) => True
  end.
Proof.
  induction sends as [|r sends IH]; intros st; cbn [tx_loop];
    pose proof (materialize_rx st) as (M1 & M2 & M3);
    pose proof (closeTx_rx (tx_materialize st)) as (C1 & C2 & C3 & _);
    remember (tx_materialize st) as m eqn:Em; clear Em;
    destruct (txCur m) as [|c cur] eqn:Ec;
    try (destruct (txEofFlag m);
         [destruct (closeTx m) as [s1 e1]; cbn [fst] in *;
          split; [|split]; congruence
         | split; [|split]; assumption]).
  destruct r as [n| |].
  - destruct (n <? List.length (c :: cur)).
    + specialize (IH (set_txCur m (skipn n (c :: cur)))).
      destruct (tx_loop sends _) as [[s1|] e']; [|exact I]. cbn in IH |- *.
      destruct IH as (I1 & I2 & I3). rewrite I1, I2, I3. auto.
    + destruct (n =? List.length (c :: cur)); [|exact I].
      specialize (IH (set_txCur m [])).
      destruct (tx_loop sends _) as [[s1|] e']; [|exact I]. cbn in IH |- *.
      destruct IH as (I1 & I2 & I3). rewrite I1, I2, I3. auto.
  - simpl. split; [|split]; assumption.
  - destruct (closeTx m) as [s1 e1]. cbn [fst] in *. simpl. split; [|split]; congruence.
Qed.

(** X13: the two directions do not interfere: a receive pass never changes
    the transmit descriptor, the transmit queue, the record in progress or
    the [txEof] flag, and a transmit pass that returns never changes the
    receive descriptor, the receive queue or the partial received line. *)
Theorem rx_tx_independent (st : jsonpipe) (reads : list read_result)
    (sends : list send_result) :
  (txFd (fst (rxWork reads st)) = txFd st /\ txQ (fst (rxWork reads st)) = txQ st
   /\ txCur (fst (rxWork reads st)) = txCur st
   /\ txEofFlag (fst (rxWork reads st)) = txEofFlag st)
  /\ match txWork st sends with
     | (TxDone st', _) => rxFd st' = rxFd st /\ rxQ st' = rxQ st /\ rxCur st' = rxCur st
     | (TxThrown, _) => True
     end.
Proof.
  split.
  - pose proof (rx_loop_tx_frame reads st false) as Hf. unfold rxWork.
    destruct (rx_loop reads st false) as [[s1 a1] e1]. exact Hf.
  - exact (tx_loop_rx_frame sends st).
Qed.

(** X14: once the receive descriptor is closed, [rxBlock] never waits: the
    successive calls return the records still queued, in order, and from
    then on the empty string. *)
Theorem rxBlock_drains_after_close (st : jsonpipe) (k : nat) :
  rxFd st = (-1)%Z ->
  rxBlock_drain (List.length (rxQ st) + k) st = rxQ st ++ repeat [] k.
Proof.
  destruct st as [tf rf e tq rq tc rc]. cbn [rxFd rxQ]. intros ->.
  induction rq as [|rx r IH].
  - cbn [List.length Nat.add app]. induction k as [|k IHk]; [reflexivity|].
    cbn. f_equal. exact IHk.
  - cbn [List.length Nat.add rxBlock_drain]. unfold rxBlock_check. cbn [rxQ].
    unfold set_rxQ. cbn [txFd rxFd txEofFlag txQ txCur rxCur]. rewrite IH. reflexivity.
Qed.

Lemma rxBlock_drains_after_close_witness :
  rxFd (mkPipe 4 (-1) false [] [list_ascii_of_string "a"; list_ascii_of_string "b"] [] []) = (-1)%Z
  /\ rxBlock_drain 4 (mkPipe 4 (-1) false [] [list_ascii_of_string "a"; list_ascii_of_string "b"] [] [])
     = [list_ascii_of_string "a"; list_ascii_of_string "b"; []; []].
Proof.
  split; [reflexivity|].
  exact (rxBlock_drains_after_close
           (mkPipe 4 (-1) false [] [list_ascii_of_string "a"; list_ascii_of_string "b"] [] [])
           2 eq_refl).
Defined.

(** X15: [setFds] throws exactly when a descriptor is still set.  Otherwise
    it installs both descriptors, makes both non-blocking, and keeps every
    other member, including the [txEof] flag and both queues.  It succeeds
    on a new object and after both directions are closed, in either
    order. *)
Theorem setFds_guard (st : jsonpipe) (a b : Z) :
  (setFds st a b = None <-> (txFd st <> (-1)%Z \/ rxFd st <> (-1)%Z))
  /\ match setFds st a b with
     | Some (st', su) =>
       txFd st' = a /\ rxFd st' = b /\ In (SetNonblock a) su /\ In (SetNonblock b) su
       /\ txEofFlag st' = txEofFlag st /\ txQ st' = txQ st /\ rxQ st' = rxQ st
       /\ txCur st' = txCur st /\ rxCur st' = rxCur st
     | None => True
     end
  /\ setFds jsonpipe_new a b <> None
  /\ setFds (fst (closeRx (fst (closeTx st)))) a b <> None
  /\ setFds (fst (closeTx (fst (closeRx st)))) a b <> None.
Proof.
  pose proof (closeTx_fds st) as [T1 T2]. pose proof (closeRx_fds st) as [R1 R2].
  pose proof (closeRx_fds (fst (closeTx st))) as [R3 R4].
  pose proof (closeTx_fds (fst (closeRx st))) as [T3 T4].
  unfold setFds. rewrite R3, R4, T1, T3, T4, R1. cbn -[closeTx closeRx].
  split; [|split; [|split; [discriminate|split; discriminate]]].
  - destruct (Z.eqb_spec (txFd st) (-1)); cbn;
      [destruct (Z.eqb_spec (rxFd st) (-1)); cbn|];
      split; intros; try discriminate; try reflexivity; tauto.
  - destruct (txFd st =? -1)%Z, (rxFd st =? -1)%Z; cbn; auto.
    destruct st; cbn. repeat split; auto 6.
Qed.

(** X16: when the peer closes its side, [postSelect] closes the receive
    direction and, within the same call, still sends the record in
    progress: end of input does not stop transmission.  Any data read
    before the end of input, and a partial line left unterminated (which
    only adds its diagnostic before the close), change nothing to this. *)
Theorem postSelect_eof_keeps_transmitting (st : jsonpipe) (chunks : list text)
    (reads : list read_result) (sends : list send_result) :
  rxFd st <> (-1)%Z -> txFd st <> (-1)%Z -> txCur st <> [] ->
  exists diag mid ev,
    snd (postSelect st true true (map RdData chunks ++ RdEof :: reads) sends)
    = diag ++ (if (rxFd st =? txFd st)%Z then EvShutdown (rxFd st) SHUT_RD
               else EvClose (rxFd st))
      :: mid ++ EvSend (txFd st) (txCur st) :: ev
    /\ Forall (fun e => exists n, e = EvNoNewlineAtEof n) diag
    /\ (mid = [] \/ mid = [EvNotify])
    /\ (chunks = [] ->
        diag = if List.length (rxCur st) =? 0 then []
               else [EvNoNewlineAtEof (List.length (rxCur st))]).
Proof.
  destruct st as [tf rf e tq rq tc rc]. cbn [rxFd txFd rxCur txCur].
  intros Hr Ht Hc.
  destruct (rx_loop_data_then chunks (RdEof :: reads) (mkPipe tf rf e tq rq tc rc) false)
    as (cur & q & act & Hl & H0).
  unfold postSelect, rxWork. cbn [rxFd].
  apply Z.eqb_neq in Hr. apply Z.eqb_neq in Ht. rewrite Hr. cbn [negb andb].
  rewrite Hl. cbn [rx_loop set_rxQ set_rxCur rxFd txFd rxCur txCur txEofFlag txQ rxQ].
  unfold closeRx, set_rxCur, set_rxQ. cbn [rxFd txFd rxCur txCur txEofFlag txQ rxQ]. rewrite Hr.
  cbn [set_rxFd txFd]. rewrite Ht. cbn [negb andb].
  destruct (tx_first_send sends (mkPipe tf (-1) e tq q tc [])) as [ev Hev]; [exact Hc|].
  unfold txWork. destruct (tx_loop sends _) as [o e2]. cbn [snd txFd txCur] in Hev |- *.
  subst e2.
  exists (if List.length cur =? 0 then [] else [EvNoNewlineAtEof (List.length cur)]),
    (if act then [EvNotify] else []), ev.
  split; [|split; [|split]].
  - destruct (List.length cur =? 0), act; reflexivity.
  - destruct (List.length cur =? 0); repeat constructor; eauto.
  - destruct act; auto.
  - intros Hch. destruct (H0 Hch) as (-> & _). reflexivity.
Qed.

Lemma postSelect_eof_keeps_transmitting_witness :
  ((3 <> -1)%Z /\ (4 <> -1)%Z /\ txCur (mkPipe 4 3 false [] [] [LF] ["{"%char]) <> [])
  /\ exists diag mid ev,
    snd (postSelect (mkPipe 4 3 false [] [] [LF] ["{"%char]) true true
           (map RdData [list_ascii_of_string "x"] ++ RdEof :: []) [])
    = diag ++ (if (rxFd (mkPipe 4 3 false [] [] [LF] ["{"%char])
                   =? txFd (mkPipe 4 3 false [] [] [LF] ["{"%char]))%Z
               then EvShutdown (rxFd (mkPipe 4 3 false [] [] [LF] ["{"%char])) SHUT_RD
               else EvClose (rxFd (mkPipe 4 3 false [] [] [LF] ["{"%char])))
      :: mid ++ EvSend (txFd (mkPipe 4 3 false [] [] [LF] ["{"%char]))
                       (txCur (mkPipe 4 3 false [] [] [LF] ["{"%char])) :: ev
    /\ Forall (fun e => exists n, e = EvNoNewlineAtEof n) diag
    /\ (mid = [] \/ mid = [EvNotify])
    /\ ([list_ascii_of_string "x"] = [] ->
        diag = if List.length (rxCur (mkPipe 4 3 false [] [] [LF] ["{"%char])) =? 0 then []
               else [EvNoNewlineAtEof (List.length (rxCur (mkPipe 4 3 false [] [] [LF] ["{"%char])))]).
Proof.
  assert (H : (3 <> -1)%Z /\ (4 <> -1)%Z /\ txCur (mkPipe 4 3 false [] [] [LF] ["{"%char]) <> [])
    by (repeat split; discriminate).
  destruct H as (H1 & H2 & H3). split; [auto|].
  exact (postSelect_eof_keeps_transmitting (mkPipe 4 3 false [] [] [LF] ["{"%char])
           [list_ascii_of_string "x"] [] [] H1 H2 H3).
Defined.
